(** * A Thompson-style regular-expression matcher (regex.py)

    Shallow embedding of [regex.py]: the automaton graph ([State] objects
    with their transition dictionaries), the fragment constructors, the
    single-pass pattern compiler [_build_nfa] and the subset simulation
    [check_string] with its [epsilon_closure].

    Python [State] objects are compared and hashed by identity.  They are
    modelled as cells of an arena ([Heap]), a reference being the index at
    which the object was allocated.  Code that allocates or mutates states
    is written in a state-and-exception monad over the arena; the matcher
    is written in the same monad so that its effect on the arena can be
    stated.

    A Python [str] is modelled by [string] and its characters by [ascii].
    The program compares characters for equality and asks [str.isalnum],
    nothing else; [str.isalnum] is a parameter of the compiler.  The one
    unbounded loop, in [epsilon_closure], runs on fuel; the theorems give
    the fuel that suffices. *)

From Stdlib Require Import Ascii String.
From stdpp Require Import gmap strings list fin_maps fin_sets relations.

#[local] Set Warnings "-clear-no-such-hyp".

Local Open Scope char_scope.

(** ** Data model *)

(** A transition key: [Some c] for the character [c] (the wildcard is the
    ordinary key ["."]), [None] for Python's [None], the epsilon key. *)
Abbreviation symbol := (option ascii).

(** [class State]: [name], the [transitions] dictionary (key to list of
    destination states) and the [is_final] flag. *)
Record State := mkState {
  name : option string;
  transitions : gmap symbol (list nat);
  is_final : bool
}.

(** [State.__init__(self, name=None)]. *)
Definition State__init__ (nm : option string) : State :=
  {| name := nm; transitions := ∅; is_final := false |}.

(** The arena of all [State] objects, in allocation order. *)
Abbreviation Heap := (list State).

(** [class NFAFragment]: a pair of references. *)
Record NFAFragment := mkFragment {
  start : nat;
  end_ : nat
}.

(** [class RegexFSM]: after [__init__] the only attribute is the reference
    [start_state]. *)
Record RegexFSM := mkRegexFSM {
  start_state : nat
}.

(** The two messages with which [_build_nfa] raises [ValueError]: the
    first reads "invalid pattern: starts with '<char>'", the second
    "unsupported symbol in pattern: '<char>'". *)
Inductive message :=
| InvalidPatternStart (char : ascii)
| UnsupportedSymbol (char : ascii).

Inductive exn :=
| ValueError (msg : message).

(** ** The monad of heap-manipulating code *)

Inductive outcome (A : Type) :=
| Return (a : A) (h : Heap)
| Raise (e : exn)
| OutOfFuel.
Arguments Return {A} a h.
Arguments Raise {A} e.
Arguments OutOfFuel {A}.

Definition M (A : Type) : Type := Heap → outcome A.

Definition ret {A} (a : A) : M A := fun h => Return a h.

Definition bind {A B} (k : A → M B) (m : M A) : M B :=
  fun h =>
    match m h with
    | Return a h' => k a h'
    | Raise e => Raise e
    | OutOfFuel => OutOfFuel
    end.

Definition raise {A} (e : exn) : M A := fun _ => Raise e.

Definition out_of_fuel {A} : M A := fun _ => OutOfFuel.

#[global] Instance M_ret : MRet M := @ret.
#[global] Instance M_bind : MBind M := @bind.

(** [for x in l: acc = body(acc, x)]. *)
Fixpoint for_each {A S} (l : list A) (body : S → A → M S) (acc : S) : M S :=
  match l with
  | [] => ret acc
  | x :: l' => acc' ← body acc x ; for_each l' body acc'
  end.

(** *** Primitive heap accesses

    A reference held by Python code is always live.  In the arena a
    reference beyond the end reads as a freshly initialised state and
    writes nowhere; [_build_nfa] never produces one ([closed_from] below). *)

(** [State(name)]: allocate a new object. *)
Definition new_State (nm : option string) : M nat :=
  fun h => Return (length h) (h ++ [State__init__ nm]).

(** The transition table and the flag of the object behind a reference. *)
Definition trans (h : Heap) (s : nat) : gmap symbol (list nat) :=
  from_option transitions ∅ (h !! s).

Definition final (h : Heap) (s : nat) : bool :=
  from_option is_final false (h !! s).

(** Read [self.transitions]. *)
Definition get_transitions (self : nat) : M (gmap symbol (list nat)) :=
  fun h => Return (trans h self) h.

(** Read [self.is_final]. *)
Definition get_is_final (self : nat) : M bool :=
  fun h => Return (final h self) h.

Definition with_transitions (tr : gmap symbol (list nat)) (st : State) : State :=
  {| name := name st; transitions := tr; is_final := is_final st |}.

Definition with_is_final (b : bool) (st : State) : State :=
  {| name := name st; transitions := transitions st; is_final := b |}.

(** Store into [self.transitions]. *)
Definition set_transitions (self : nat) (tr : gmap symbol (list nat)) : M unit :=
  fun h => Return tt (alter (with_transitions tr) self h).

(** [self.is_final = b]. *)
Definition set_is_final (self : nat) (b : bool) : M unit :=
  fun h => Return tt (alter (with_is_final b) self h).

(** ** Automaton graph model *)

(** [State.add_transition(self, symbol, state)]. *)
Definition add_transition (self : nat) (sym : symbol) (state : nat) : M unit :=
  tr ← get_transitions self ;
  match tr !! sym with
  | Some dests => set_transitions self (<[sym := dests ++ [state]]> tr)
  | None => set_transitions self (<[sym := [state]]> tr)
  end.

(** ** Fragment constructors *)

(** [build_fragment_for_symbol(symbol)]. *)
Definition build_fragment_for_symbol (sym : ascii) : M NFAFragment :=
  start ← new_State None ;
  end_ ← new_State None ;
  add_transition start (Some sym) end_ ;;
  ret (mkFragment start end_).

(** [apply_star_to_fragment(fragment)]. *)
Definition apply_star_to_fragment (fragment : NFAFragment) : M NFAFragment :=
  new_start ← new_State None ;
  new_end ← new_State None ;
  add_transition new_start None (start fragment) ;;
  add_transition new_start None new_end ;;
  add_transition (end_ fragment) None (start fragment) ;;
  add_transition (end_ fragment) None new_end ;;
  ret (mkFragment new_start new_end).

(** [apply_plus_to_fragment(fragment)]. *)
Definition apply_plus_to_fragment (fragment : NFAFragment) : M NFAFragment :=
  new_end ← new_State None ;
  add_transition (end_ fragment) None (start fragment) ;;
  add_transition (end_ fragment) None new_end ;;
  ret (mkFragment (start fragment) new_end).

(** ** Pattern compiler *)

(** [char == '*' or char == '+']. *)
Definition is_operator (char : ascii) : bool :=
  bool_decide (char = "*") || bool_decide (char = "+").

Section Compiler.

(** Python's [str.isalnum] on one character.  It is a table of the
    interpreter, not of this program, and the compiler is verified for
    any such table. *)
Variable isalnum : ascii → bool.

(** The part of the loop body of [_build_nfa] that follows the lookahead:
    [char] is the atom, [rep] the repetition operator read after it (or
    [None]), [base] the pair [(base_start, base_end)], [None] while both
    variables are [None]. *)
Definition add_atom (char : ascii) (rep : option ascii)
    (base : option (nat * nat)) : M (option (nat * nat)) :=
  fragment ← build_fragment_for_symbol char ;
  fragment ← (if bool_decide (rep = Some "*") then apply_star_to_fragment fragment
              else if bool_decide (rep = Some "+") then apply_plus_to_fragment fragment
              else ret fragment) ;
  match base with
  | None => ret (Some (start fragment, end_ fragment))
  | Some (base_start, base_end) =>
      add_transition base_end None (start fragment) ;;
      ret (Some (base_start, end_ fragment))
  end.

(** The [while i < n] loop of [_build_nfa].  The list argument is the
    unread suffix [pattern[i:]]; reading the lookahead character moves the
    cursor two places. *)
Fixpoint build_loop (rest : list ascii) (base : option (nat * nat))
    : M (option (nat * nat)) :=
  match rest with
  | [] => ret base
  | char :: rest1 =>
      if is_operator char then raise (ValueError (InvalidPatternStart char))
      else if isalnum char || bool_decide (char = ".") then
        match rest1 with
        | r :: rest2 =>
            if is_operator r then
              base' ← add_atom char (Some r) base ; build_loop rest2 base'
            else
              base' ← add_atom char None base ; build_loop rest1 base'
        | [] => base' ← add_atom char None base ; build_loop rest1 base'
        end
      else raise (ValueError (UnsupportedSymbol char))
  end.

(** [RegexFSM._build_nfa(self, pattern)]; the value returned is the
    reference stored in [self.start_state]. *)
Definition _build_nfa (pattern : string) : M nat :=
  base ← build_loop (list_ascii_of_string pattern) None ;
  base ← match base with
         | None => base_start ← new_State None ; ret (base_start, base_start)
         | Some b => ret b
         end ;
  set_is_final base.2 true ;;
  ret base.1.

(** [RegexFSM.__init__(self, pattern)]. *)
Definition RegexFSM__init__ (pattern : string) : M RegexFSM :=
  start_state ← _build_nfa pattern ;
  ret (mkRegexFSM start_state).

End Compiler.

(** ** Matcher *)

(** The [for nxt in state.transitions[None]] loop of [epsilon_closure],
    on the pair of the local [closure] set and [stack] list.  The Python
    list [stack] is kept in its own order: [append] adds at the end. *)
Definition push_new (acc : gset nat * list nat) (nxt : nat) : gset nat * list nat :=
  if bool_decide (nxt ∈ acc.1) then acc
  else ({[nxt]} ∪ acc.1, acc.2 ++ [nxt]).

(** The [while stack] loop of [epsilon_closure]; [stack.pop()] takes the
    last element.  The loop has no bound in the source: [fuel] counts the
    iterations allowed. *)
Fixpoint closure_loop (fuel : nat) (stack : list nat) (closure : gset nat)
    : M (gset nat) :=
  match last stack with
  | None => ret closure
  | Some state =>
      match fuel with
      | 0 => out_of_fuel
      | S fuel' =>
          tr ← get_transitions state ;
          match tr !! None with
          | Some dests =>
              let acc := foldl push_new (closure, removelast stack) dests in
              closure_loop fuel' acc.2 acc.1
          | None => closure_loop fuel' (removelast stack) closure
          end
      end
  end.

(** [RegexFSM.epsilon_closure(self, states)].  [list(states)] lists the
    set in its iteration order, here the order of [elements]. *)
Definition epsilon_closure (fuel : nat) (states : gset nat) : M (gset nat) :=
  closure_loop fuel (elements states) states.

(** The body of [for state in current_states] in [check_string]. *)
Definition collect (char : ascii) (next_states : gset nat) (state : nat)
    : M (gset nat) :=
  tr ← get_transitions state ;
  let next_states :=
    match tr !! Some char with
    | Some dests => next_states ∪ list_to_set dests
    | None => next_states
    end in
  let next_states :=
    match tr !! Some "." with
    | Some dests => next_states ∪ list_to_set dests
    | None => next_states
    end in
  ret next_states.

(** The body of [for char in input_str] in [check_string]. *)
Definition step (fuel : nat) (current_states : gset nat) (char : ascii)
    : M (gset nat) :=
  next_states ← for_each (elements current_states) (collect char) (∅ : gset nat) ;
  epsilon_closure fuel next_states.

(** [any(state.is_final for state in states)]. *)
Fixpoint any_is_final (states : list nat) : M bool :=
  match states with
  | [] => ret false
  | state :: states' =>
      get_is_final state ≫= λ b : bool,
      if b then ret true else any_is_final states'
  end.

(** [RegexFSM.check_string(self, input_str)]. *)
Definition check_string (fuel : nat) (self : RegexFSM) (input_str : string) : M bool :=
  current_states ← epsilon_closure fuel ({[start_state self]} : gset nat) ;
  current_states ← for_each (list_ascii_of_string input_str) (step fuel) current_states ;
  any_is_final (elements current_states).

(** * Specification vocabulary *)

(** ** The automaton read as a graph *)

(** Destinations of [s] under the key [k]; none when the key is absent. *)
Definition dests (h : Heap) (s : nat) (k : symbol) : list nat :=
  default [] (trans h s !! k).

(** An epsilon transition from [s] to [t]. *)
Definition eps_edge (h : Heap) (s t : nat) : Prop := t ∈ dests h s None.

(** A transition from [s] to [t] that consumes the input character [c]:
    under the key [c] itself or under the wildcard key. *)
Definition sym_edge (h : Heap) (c : ascii) (s t : nat) : Prop :=
  t ∈ dests h s (Some c) ∨ t ∈ dests h s (Some ".").

(** [run h w s f]: some path of the graph leads from [s] to [f] and the
    characters it consumes spell [w]. *)
Inductive run (h : Heap) : list ascii → nat → nat → Prop :=
| run_nil s : run h [] s s
| run_eps w s t f : eps_edge h s t → run h w t f → run h w s f
| run_sym c w s t f : sym_edge h c s t → run h w t f → run h (c :: w) s f.

Definition accepts (h : Heap) (s : nat) (w : list ascii) : Prop :=
  ∃ f, run h w s f ∧ final h f = true.

(** [C] is the set of states reachable from [S] by epsilon transitions. *)
Definition is_closure (h : Heap) (S C : gset nat) : Prop :=
  ∀ x, x ∈ C ↔ ∃ s, s ∈ S ∧ rtc (eps_edge h) s x.

(** From the reference [n] on, the arena refers to live states from [n]
    on only: the states allocated since the arena had [n] states form a
    graph of their own. *)
Definition closed_from (n : nat) (h : Heap) : Prop :=
  ∀ s k t, n ≤ s → t ∈ dests h s k → n ≤ t < length h.

(** A computation that hands back the arena it was given. *)
Definition read_only {A} (m : M A) : Prop :=
  ∀ h a h', m h = Return a h' → h' = h.

(** ** Fuel *)

(** Every destination mentioned in one state, in the whole arena. *)
Definition targets_of (st : State) : gset nat :=
  ⋃ ((λ kv : symbol * list nat, list_to_set kv.2) <$> map_to_list (transitions st)).

Definition all_targets (h : Heap) : gset nat := ⋃ (targets_of <$> h).

(** Iterations that suffice for every closure computed while matching
    from one start state. *)
Definition enough_fuel (h : Heap) : nat := S (size (all_targets h)).

(** ** Patterns *)

(** [str.isalnum] on the 7-bit code points: digits and Latin letters. *)
Definition isalnum_ascii (c : ascii) : bool :=
  let n := nat_of_ascii c in
  ((48 <=? n) && (n <=? 57) || (65 <=? n) && (n <=? 90) || (97 <=? n) && (n <=? 122))%nat.

(** [char.isalnum() or char == '.']. *)
Definition is_atom (isalnum : ascii → bool) (c : ascii) : bool :=
  isalnum c || bool_decide (c = ".").

(** A character that the compiler reads as an atom. *)
Definition atom_char (isalnum : ascii → bool) (c : ascii) : Prop :=
  is_operator c = false ∧ is_atom isalnum c = true.

(** The atom [c] of a pattern consumes the input character [x]: the two
    lookups of [check_string], under [x] and under the wildcard key. *)
Definition atom_matches (c x : ascii) : bool :=
  bool_decide (x = c) || bool_decide (c = ".").

(** The input has the length of the pattern and each of its characters is
    the pattern character at that position, or that position holds the
    wildcard. *)
Definition literal_match (p w : list ascii) : Prop :=
  length w = length p ∧
  ∀ i c x, p !! i = Some c → w !! i = Some x → x = c ∨ c = ".".

Fixpoint literal_matchb (p w : list ascii) : bool :=
  match p, w with
  | [], [] => true
  | c :: p', x :: w' => atom_matches c x && literal_matchb p' w'
  | _, _ => false
  end.

(** A left-to-right scan for the first character that cannot be compiled:
    an operator with no atom to apply to (at the start of the pattern or
    right after another operator, [no_atom] telling which), or a character
    that is neither alphanumeric, nor the wildcard, nor an operator. *)
Fixpoint first_defect (isalnum : ascii → bool) (no_atom : bool) (pattern : list ascii)
    : option message :=
  match pattern with
  | [] => None
  | c :: rest =>
      if is_operator c then
        if no_atom then Some (InvalidPatternStart c)
        else first_defect isalnum true rest
      else if isalnum c || bool_decide (c = ".") then first_defect isalnum false rest
      else Some (UnsupportedSymbol c)
  end.

(** A repetition operator with no eligible preceding atom: the pattern
    starts with an operator, or two operators are consecutive. *)
Definition dangling_operator (pattern : list ascii) : Prop :=
  (∃ c rest, pattern = c :: rest ∧ is_operator c = true) ∨
  (∃ l c1 c2 r, pattern = l ++ c1 :: c2 :: r ∧
                is_operator c1 = true ∧ is_operator c2 = true).

(** A character that is neither alphanumeric, nor the wildcard, nor an
    operator. *)
Definition unsupported (isalnum : ascii → bool) (c : ascii) : Prop :=
  isalnum c = false ∧ c ≠ "." ∧ is_operator c = false.

Definition unsupported_symbol (isalnum : ascii → bool) (pattern : list ascii) : Prop :=
  ∃ c, c ∈ pattern ∧ unsupported isalnum c.

(** ** Shapes of states and of updates *)

(** A state whose only transitions are the epsilon transitions to [ds]. *)
Definition eps_state (ds : list nat) : State :=
  {| name := None; transitions := {[None := ds]}; is_final := false |}.

(** A state whose only transition is [--c--> t]. *)
Definition atom_state (c : ascii) (t : nat) : State :=
  {| name := None; transitions := {[Some c := [t]]}; is_final := false |}.

(** An accepting state without transitions. *)
Definition final_state : State :=
  {| name := None; transitions := ∅; is_final := true |}.

(** What [add_transition(symbol, state)] does to the object it is called
    on: [state] goes to the end of the destinations under [symbol]. *)
Definition add_dest (sym : symbol) (state : nat) (st : State) : State :=
  with_transitions
    (<[sym := default [] (transitions st !! sym) ++ [state]]> (transitions st)) st.

(** Both [add_transition] calls on [fragment.end], as one update. *)
Definition add_loop_exit (s e : nat) (st : State) : State :=
  add_dest None e (add_dest None s st).

(** The epsilon destinations that a repetition construction adds to the
    state [s] under the key [k]: [ds] when [k] is the epsilon key and [s]
    one of [sources], nothing otherwise. *)
Definition added_dests (sources : list nat) (ds : list nat) (s : nat) (k : symbol)
    : list nat :=
  if bool_decide (k = None ∧ s ∈ sources) then ds else [].

(** The [is_final] flags of the arena, in allocation order. *)
Definition flags (h : Heap) : list bool := is_final <$> h.

(** ** Shapes of compiled arenas *)

(** The states that [add_atom] allocates for the atom [c] with the
    repetition [rep] when the arena holds [n] states. *)
Definition fragment_states (c : ascii) (rep : option ascii) (n : nat) : list State :=
  if bool_decide (rep = Some "*") then
    [atom_state c (n + 1); eps_state [n; n + 3]; eps_state [n; n + 3]; State__init__ None]
  else if bool_decide (rep = Some "+") then
    [atom_state c (n + 1); eps_state [n; n + 2]; State__init__ None]
  else [atom_state c (n + 1); State__init__ None].

(** The entry of that fragment. *)
Definition fragment_start (rep : option ascii) (n : nat) : nat :=
  if bool_decide (rep = Some "*") then n + 2 else n.

(** [base] after the fragment has been concatenated. *)
Definition extend_base (base : option (nat * nat)) (s e : nat) : nat * nat :=
  match base with
  | None => (s, e)
  | Some (base_start, _) => (base_start, e)
  end.

(** The arena after the link from the old [base_end]. *)
Definition link_base (base : option (nat * nat)) (s : nat) (h : Heap) : Heap :=
  match base with
  | None => h
  | Some (_, base_end) => alter (add_dest None s) base_end h
  end.

Definition base_ok (base : option (nat * nat)) (h : Heap) : Prop :=
  match base with
  | None => True
  | Some (_, base_end) => base_end < length h
  end.

(** [base_start] and [base_end] are such states. *)
Definition base_from (n : nat) (base : option (nat * nat)) (h : Heap) : Prop :=
  match base with
  | None => True
  | Some (base_start, base_end) => n ≤ base_start < length h ∧ n ≤ base_end < length h
  end.

(** The states compiled for a starred atom and for a plussed atom when the
    arena holds [n] states, the last one marked final. *)
Definition star_states (c : ascii) (n : nat) : list State :=
  [atom_state c (n + 1); eps_state [n; n + 3]; eps_state [n; n + 3]; final_state].

Definition plus_states (c : ascii) (n : nat) : list State :=
  [atom_state c (n + 1); eps_state [n; n + 2]; final_state].

(** The states compiled for the atoms [p] that follow an earlier atom.
    The first state of the list, at index [n], is the end state of that
    earlier atom; [last] is the end state of the last atom. *)
Fixpoint chain_states (last : State) (p : list ascii) (n : nat) : list State :=
  match p with
  | [] => [last]
  | c :: p' => eps_state [n + 1] :: atom_state c (n + 2) :: chain_states last p' (n + 2)
  end.

(** The states compiled for a whole pattern of atoms. *)
Definition literal_states (last : State) (p : list ascii) (n : nat) : list State :=
  match p with
  | [] => [last]
  | c :: p' => atom_state c (n + 1) :: chain_states last p' (n + 1)
  end.

(** A two-state arena whose epsilon graph is a cycle. *)
Definition cyclic_heap : Heap := [eps_state [1]; eps_state [0]].

(** ** The language of a pattern *)

(** The tokens that the loop of [_build_nfa] reads: an atom with the
    repetition operator right after it, if there is one. *)
Fixpoint tokens (pattern : list ascii) : list (ascii * option ascii) :=
  match pattern with
  | [] => []
  | c :: rest1 =>
      match rest1 with
      | r :: rest2 =>
          if is_operator r then (c, Some r) :: tokens rest2
          else (c, None) :: tokens rest1
      | [] => [(c, None)]
      end
  end.

(** The strings of one token: one character that the atom matches; any
    number of them under ["*"]; one or more under ["+"]. *)
Definition repeats (c : ascii) (rep : option ascii) (w : list ascii) : Prop :=
  if bool_decide (rep = Some "*") then forallb (atom_matches c) w = true
  else if bool_decide (rep = Some "+") then w ≠ [] ∧ forallb (atom_matches c) w = true
  else ∃ x, w = [x] ∧ atom_matches c x = true.

(** The strings of a sequence of tokens: one string per token, in order. *)
Fixpoint in_language (toks : list (ascii * option ascii)) (w : list ascii) : Prop :=
  match toks with
  | [] => w = []
  | (c, rep) :: toks' =>
      ∃ w1 w2, w = w1 ++ w2 ∧ repeats c rep w1 ∧ in_language toks' w2
  end.

(** The states compiled for the tokens [toks] that follow an earlier
    fragment.  The first state of the list, at index [n], is the end state
    of that fragment, linked to the entry of the next one; each fragment
    brings its states but the last, which heads the rest of the list;
    [last] is the end state of the last fragment. *)
Fixpoint tokens_states (last : State) (toks : list (ascii * option ascii)) (n : nat)
    : list State :=
  match toks with
  | [] => [last]
  | (c, rep) :: toks' =>
      eps_state [fragment_start rep (n + 1)]
      :: removelast (fragment_states c rep (n + 1))
      ++ tokens_states last toks' (n + length (fragment_states c rep (n + 1)))
  end.

(** The states compiled for a whole pattern, and its start state. *)
Definition pattern_states (last : State) (toks : list (ascii * option ascii)) (n : nat)
    : list State :=
  match toks with
  | [] => [last]
  | (c, rep) :: toks' =>
      removelast (fragment_states c rep n)
      ++ tokens_states last toks' (n + length (fragment_states c rep n) - 1)
  end.

Definition pattern_start (toks : list (ascii * option ascii)) (n : nat) : nat :=
  match toks with
  | [] => n
  | (c, rep) :: _ => fragment_start rep n
  end.

(** The number of states allocated for one token and for a pattern. *)
Definition token_size (tok : ascii * option ascii) : nat :=
  if bool_decide (tok.2 = Some "*") then 4
  else if bool_decide (tok.2 = Some "+") then 3 else 2.

Fixpoint fragments_size (toks : list (ascii * option ascii)) : nat :=
  match toks with
  | [] => 0
  | tok :: toks' => token_size tok + fragments_size toks'
  end.

Definition states_count (toks : list (ascii * option ascii)) : nat :=
  match toks with
  | [] => 1
  | _ => fragments_size toks
  end.

(** ** The iteration order of sets

    Python iterates over a set of [State] objects in an order that the
    program does not control.  The matcher once more, with that order as
    a parameter: [enum] lists a set wherever the source turns one into a
    list or loops over it.  [check_string] above is the instance at
    [elements]. *)

Definition enumerates (enum : gset nat → list nat) : Prop :=
  ∀ X, enum X ≡ₚ elements X.

Definition epsilon_closure_with (enum : gset nat → list nat) (fuel : nat)
    (states : gset nat) : M (gset nat) :=
  closure_loop fuel (enum states) states.

Definition step_with (enum : gset nat → list nat) (fuel : nat)
    (current_states : gset nat) (char : ascii) : M (gset nat) :=
  next_states ← for_each (enum current_states) (collect char) (∅ : gset nat) ;
  epsilon_closure_with enum fuel next_states.

Definition check_string_with (enum : gset nat → list nat) (fuel : nat)
    (self : RegexFSM) (input_str : string) : M bool :=
  current_states ← epsilon_closure_with enum fuel ({[start_state self]} : gset nat) ;
  current_states ← for_each (list_ascii_of_string input_str) (step_with enum fuel)
                            current_states ;
  any_is_final (enum current_states).

(** An enumeration other than [elements]: the reverse order. *)
Definition reverse_elements (X : gset nat) : list nat := reverse (elements X).

(** The token is an atom under ["*"]. *)
Definition starred (tok : ascii * option ascii) : bool :=
  bool_decide (tok.2 = Some "*").

(** * Proofs *)

(** ** Reasoning about monadic code *)

Lemma bind_unfold {A B} (m : M A) (k : A → M B) h :
  (m ≫= k) h = match m h with
               | Return a h' => k a h'
               | Raise e => Raise e
               | OutOfFuel => OutOfFuel
               end.
Proof. reflexivity. Qed.

Lemma bind_Return {A B} (m : M A) (k : A → M B) h a h' :
  m h = Return a h' → (m ≫= k) h = k a h'.
Proof. intros Hm. rewrite bind_unfold, Hm. reflexivity. Qed.

(** ** Epsilon closure *)

Section Closure.

Variable h : Heap.

Lemma dests_all_targets s k x : x ∈ dests h s k → x ∈ all_targets h.
Proof.
  unfold dests, trans, all_targets. intros Hx.
  destruct (h !! s) as [st|] eqn:Hs; simpl in Hx.
  2:{ rewrite lookup_empty in Hx. simpl in Hx. by apply elem_of_nil in Hx. }
  destruct (transitions st !! k) as [l|] eqn:Hk; simpl in Hx.
  2:{ by apply elem_of_nil in Hx. }
  apply elem_of_union_list. exists (targets_of st). split.
  - apply list_elem_of_fmap. exists st. split; [done|].
    apply list_elem_of_lookup. eauto.
  - unfold targets_of. apply elem_of_union_list. exists (list_to_set l). split.
    + apply list_elem_of_fmap. exists (k, l). split; [done|].
      by apply elem_of_map_to_list.
    + by apply elem_of_list_to_set.
Qed.

(** The inner [for] loop: the states pushed are exactly the destinations
    not seen before, each once. *)
Lemma foldl_push_new (ds : list nat) (closure : gset nat) (stack : list nat) :
  ∃ new,
    foldl push_new (closure, stack) ds = (closure ∪ list_to_set new, stack ++ new) ∧
    NoDup new ∧
    (∀ x, x ∈ new → x ∈ ds ∧ x ∉ closure) ∧
    (∀ x, x ∈ ds → x ∈ closure ∨ x ∈ new).
Proof.
  revert closure stack. induction ds as [|d ds IH]; intros closure stack.
  - exists []. simpl. rewrite app_nil_r, union_empty_r_L.
    split; [done|]. split; [apply NoDup_nil_2|].
    split; intros x Hx; by apply elem_of_nil in Hx.
  - simpl. unfold push_new at 2. simpl. case_bool_decide as Hd.
    + destruct (IH closure stack) as (new & Heq & Hnd & Hnew & Hall).
      exists new. split; [done|]. split; [done|]. split.
      * intros x Hx. apply Hnew in Hx. set_solver.
      * intros x Hx. apply elem_of_cons in Hx as [->|Hx]; auto.
    + destruct (IH ({[d]} ∪ closure) (stack ++ [d])) as (new & Heq & Hnd & Hnew & Hall).
      exists (d :: new). rewrite Heq. split; [|split; [|split]].
      * f_equal; [set_solver|]. by rewrite <- app_assoc.
      * constructor; [|done]. intros Hin. apply Hnew in Hin. set_solver.
      * intros x Hx. apply elem_of_cons in Hx as [->|Hx]; [set_solver|].
        apply Hnew in Hx. set_solver.
      * intros x Hx. apply elem_of_cons in Hx as [->|Hx]; [set_solver|].
        destruct (Hall x Hx); set_solver.
Qed.

Lemma size_difference_new (T closure : gset nat) (new : list nat) :
  NoDup new → (∀ x, x ∈ new → x ∈ T ∧ x ∉ closure) →
  size (T ∖ (closure ∪ list_to_set new)) + length new = size (T ∖ closure).
Proof.
  intros Hnd Hnew.
  assert (T ∖ closure = (T ∖ (closure ∪ list_to_set new)) ∪ list_to_set new) as ->.
  { apply set_eq. intros x. rewrite !elem_of_union, !elem_of_difference, elem_of_union,
      elem_of_list_to_set.
    split.
    - intros [HT Hc]. destruct (decide (x ∈ new)); [by right|left; tauto].
    - intros [[HT Hc]|Hx]; [tauto|]. by apply Hnew. }
  assert (Hdisj : T ∖ (closure ∪ list_to_set new) ## list_to_set new).
  { intros x. rewrite elem_of_difference, elem_of_union. tauto. }
  rewrite (size_union _ _ Hdisj). by rewrite size_list_to_set.
Qed.

(** The [while] loop started with every stacked state already in
    [closure].  With fuel for the stacked states and for the destinations
    not yet seen it returns, leaves the arena as it was, and its result
    [C] extends [closure] by reachable states only; [C] has every epsilon
    successor of a member, save for the members that were in [closure]
    without being on the stack. *)
Lemma closure_loop_spec (fuel : nat) (stack : list nat) (closure : gset nat) :
  (∀ x, x ∈ stack → x ∈ closure) →
  length stack + size (all_targets h ∖ closure) ≤ fuel →
  ∃ C,
    closure_loop fuel stack closure h = Return C h ∧
    closure ⊆ C ∧
    (∀ x, x ∈ C → ∃ s, s ∈ closure ∧ rtc (eps_edge h) s x) ∧
    (∀ x y, x ∈ C → eps_edge h x y → y ∈ C ∨ (x ∈ closure ∧ x ∉ stack)).
Proof.
  revert stack closure. induction fuel as [|fuel IH]; intros stack closure Hstack Hfuel.
  - destruct stack; [|simpl in Hfuel; lia].
    exists closure. simpl. split; [done|]. split; [done|]. split.
    + intros x Hx. exists x. split; [done|apply rtc_refl].
    + intros x y Hx _. right. split; [done|]. by intros ?%elem_of_nil.
  - destruct (last stack) as [state|] eqn:Hlast.
    2:{ apply last_None in Hlast as ->. exists closure. simpl.
        split; [done|]. split; [done|]. split.
        - intros x Hx. exists x. split; [done|apply rtc_refl].
        - intros x y Hx _. right. split; [done|]. by intros ?%elem_of_nil. }
    apply last_Some in Hlast as [stack' ->].
    simpl closure_loop. rewrite last_snoc, removelast_last.
    rewrite bind_unfold. unfold get_transitions at 1.
    rewrite length_app in Hfuel. simpl in Hfuel.
    assert (Hstate : state ∈ closure) by (apply Hstack; set_solver).
    destruct (trans h state !! None) as [ds|] eqn:Hds.
    + destruct (foldl_push_new ds closure stack') as (new & -> & Hnd & Hnew & Hall).
      simpl.
      assert (Hds' : dests h state None = ds) by (unfold dests; by rewrite Hds).
      assert (Hsz : size (all_targets h ∖ (closure ∪ list_to_set new)) + length new
                    = size (all_targets h ∖ closure)).
      { apply size_difference_new; [done|]. intros x Hx. split; [|by apply Hnew].
        apply (dests_all_targets state None). rewrite Hds'. by apply Hnew. }
      destruct (IH (stack' ++ new) (closure ∪ list_to_set new)) as (C & HC & Hsub & Hreach & Hsucc).
      { intros x [Hx|Hx]%elem_of_app; [|set_solver].
        apply elem_of_union_l, Hstack. set_solver. }
      { rewrite length_app. lia. }
      exists C. split; [done|]. split; [set_solver|]. split.
      * intros x Hx. destruct (Hreach x Hx) as (s & Hs & Hsx).
        apply elem_of_union in Hs as [Hs|Hs]; [eauto|].
        apply elem_of_list_to_set in Hs.
        exists state. split; [done|]. eapply rtc_l; [|done].
        unfold eps_edge. rewrite Hds'. by apply Hnew.
      * intros x y Hx Hxy. destruct (Hsucc x y Hx Hxy) as [?|[Hxc Hxs]]; [by left|].
        destruct (decide (x = state)) as [->|Hne].
        { left. unfold eps_edge in Hxy. rewrite Hds' in Hxy.
          apply Hsub. destruct (Hall y Hxy); set_solver. }
        right. rewrite elem_of_app in Hxs.
        apply elem_of_union in Hxc as [Hxc|Hxc].
        2:{ apply elem_of_list_to_set in Hxc. tauto. }
        split; [done|]. rewrite elem_of_app, list_elem_of_singleton. tauto.
    + destruct (IH stack' closure) as (C & HC & Hsub & Hreach & Hsucc).
      { intros x Hx. apply Hstack. set_solver. }
      { lia. }
      exists C. split; [done|]. split; [done|]. split; [done|].
      intros x y Hx Hxy. destruct (Hsucc x y Hx Hxy) as [?|[Hxc Hxs]]; [by left|].
      destruct (decide (x = state)) as [->|Hne].
      { unfold eps_edge, dests in Hxy. rewrite Hds in Hxy. by apply elem_of_nil in Hxy. }
      right. split; [done|]. rewrite elem_of_app, list_elem_of_singleton. tauto.
Qed.

(** Two sets that both are the closure of [S] are the same set. *)
Lemma is_closure_unique (S C C' : gset nat) :
  is_closure h S C → is_closure h S C' → C = C'.
Proof.
  intros HC HC'. apply set_eq. intros x. rewrite (HC x), (HC' x). done.
Qed.

Lemma is_closure_closed (S C : gset nat) x y :
  is_closure h S C → x ∈ C → rtc (eps_edge h) x y → y ∈ C.
Proof.
  intros HC Hx Hxy. apply HC in Hx as (s & Hs & Hsx). apply HC.
  exists s. split; [done|]. by etrans.
Qed.

Lemma is_closure_idemp (S C : gset nat) : is_closure h S C → is_closure h C C.
Proof.
  intros HC x. split.
  - intros Hx. exists x. split; [done|apply rtc_refl].
  - intros (s & Hs & Hsx). by eapply is_closure_closed.
Qed.

Lemma epsilon_closure_spec (fuel : nat) (states : gset nat) :
  size (states ∪ all_targets h) ≤ fuel →
  ∃ C, epsilon_closure fuel states h = Return C h ∧ is_closure h states C.
Proof.
  intros Hfuel. unfold epsilon_closure.
  destruct (closure_loop_spec fuel (elements states) states) as (C & HC & Hsub & Hreach & Hsucc).
  - intros x Hx. by apply elem_of_elements.
  - assert (states ∪ all_targets h = states ∪ all_targets h ∖ states) as Heq.
    { apply set_eq. intros x. rewrite !elem_of_union, elem_of_difference.
      destruct (decide (x ∈ states)); tauto. }
    rewrite Heq, size_union in Hfuel by set_solver.
    exact Hfuel.
  - exists C. split; [done|]. intros x. split; [by apply Hreach|].
    intros (s & Hs & Hsx). apply Hsub in Hs.
    induction Hsx as [s|s t x Hst _ IH]; [done|].
    apply IH. destruct (Hsucc s t Hs Hst) as [?|[Hin Hn]]; [done|].
    exfalso. apply Hn. by apply elem_of_elements.
Qed.

End Closure.

(** ** Runs of the automaton and the subset simulation *)

Section Simulation.

Variable h : Heap.

Lemma run_rtc_l w s t f : rtc (eps_edge h) s t → run h w t f → run h w s f.
Proof. induction 1; [done|]. intros. eapply run_eps; eauto. Qed.

Lemma run_nil_inv s f : run h [] s f ↔ rtc (eps_edge h) s f.
Proof.
  split.
  - remember [] as w eqn:Hw. induction 1 as [| w s t f Hst _ IH |]; [done| |done].
    eapply rtc_l; eauto.
  - intros Hsf. eapply run_rtc_l; [done|constructor].
Qed.

Lemma run_cons_inv c w s f :
  run h (c :: w) s f ↔
  ∃ s1 s2, rtc (eps_edge h) s s1 ∧ sym_edge h c s1 s2 ∧ run h w s2 f.
Proof.
  split.
  - remember (c :: w) as cw eqn:Hcw.
    induction 1 as [| w0 s t f Hst _ IH | c0 w0 s t f Hst Hr _]; [done| |].
    + destruct (IH Hcw) as (s1 & s2 & Hs1 & Hsym & Hrun).
      exists s1, s2. split; [|done]. eapply rtc_l; eauto.
    + injection Hcw as -> ->. exists s, t. split; [apply rtc_refl|done].
  - intros (s1 & s2 & Hs1 & Hsym & Hrun).
    eapply run_rtc_l; [done|]. eapply run_sym; eauto.
Qed.

(** The loop over [current_states] gathers the destinations, under the
    character read or under the wildcard, of the states of the list. *)
Lemma for_each_collect_spec (c : ascii) (l : list nat) (acc : gset nat) :
  ∃ N, for_each l (collect c) acc h = Return N h ∧
       ∀ x, x ∈ N ↔ x ∈ acc ∨ ∃ s, s ∈ l ∧ sym_edge h c s x.
Proof.
  revert acc. induction l as [|s l IH]; intros acc.
  - exists acc. split; [done|]. intros x. split; [auto|].
    intros [?|(s & Hs & _)]; [done|]. by apply elem_of_nil in Hs.
  - simpl. rewrite bind_unfold. unfold collect at 1. rewrite bind_unfold.
    unfold get_transitions at 1, ret at 1.
    match goal with |- context [for_each l _ ?a h] => destruct (IH a) as (N & HN & Hx) end.
    exists N. split; [done|]. intros x. rewrite Hx. unfold sym_edge, dests.
    setoid_rewrite elem_of_cons.
    destruct (trans h s !! Some c) as [d1|] eqn:H1;
      destruct (trans h s !! Some ".") as [d2|] eqn:H2;
      rewrite ?elem_of_union, ?elem_of_list_to_set.
    all: split.
    all: try (intros [[[?|?]|?]|(s' & Hs' & He)]).
    all: try (intros [[?|?]|(s' & Hs' & He)]).
    all: try (intros [?|(s' & Hs' & He)]).
    all: eauto 8.
    all: try (right; exists s; rewrite H1, H2; simpl; eauto; fail).
    all: try (destruct Hs' as [->|Hs']; rewrite ?H1, ?H2 in He; simpl in He;
              rewrite ?elem_of_nil in He; [tauto|eauto 8]).
Qed.

Lemma any_is_final_spec (l : list nat) :
  ∃ b, any_is_final l h = Return b h ∧ (b = true ↔ ∃ s, s ∈ l ∧ final h s = true).
Proof.
  induction l as [|s l (b & Hb & IH)].
  - exists false. split; [done|]. split; [done|]. intros (s & Hs & _).
    by apply elem_of_nil in Hs.
  - simpl. rewrite bind_unfold. unfold get_is_final at 1.
    destruct (final h s) eqn:Hs.
    + exists true. split; [done|]. split; [|done]. intros _. exists s. split; [left|done].
    + exists b. split; [done|]. rewrite IH. split.
      * intros (s' & Hs' & Hf). exists s'. split; [by right|done].
      * intros (s' & [->|Hs']%elem_of_cons & Hf); [congruence|eauto].
Qed.

Lemma size_start_le (s : nat) : size ({[s]} ∪ all_targets h) ≤ enough_fuel h.
Proof.
  unfold enough_fuel. rewrite size_union_alt, size_singleton.
  apply le_n_S, subseteq_size. set_solver.
Qed.

Lemma size_targets_le (N : gset nat) :
  N ⊆ all_targets h → size (N ∪ all_targets h) ≤ enough_fuel h.
Proof.
  intros HN. unfold enough_fuel. apply Nat.le_le_succ_r, subseteq_size. set_solver.
Qed.

(** One input character: the new working set is the closure of the
    destinations of the old one. *)
Lemma step_spec (fuel : nat) (cur : gset nat) (c : ascii) :
  enough_fuel h ≤ fuel →
  ∃ C, step fuel cur c h = Return C h ∧
       ∀ x, x ∈ C ↔ ∃ s t, s ∈ cur ∧ sym_edge h c s t ∧ rtc (eps_edge h) t x.
Proof.
  intros Hfuel. unfold step. rewrite bind_unfold.
  destruct (for_each_collect_spec c (elements cur) ∅) as (N & -> & HN).
  destruct (epsilon_closure_spec h fuel N) as (C & -> & HC).
  - etrans; [|exact Hfuel]. apply size_targets_le. intros x [Hx|(s & _ & [Hs|Hs])]%HN.
    + by apply not_elem_of_empty in Hx.
    + by eapply dests_all_targets.
    + by eapply dests_all_targets.
  - exists C. split; [done|]. intros x. rewrite (HC x). split.
    + intros (t & [Ht|(s & Hs & Hst)]%HN & Htx); [by apply not_elem_of_empty in Ht|].
      exists s, t. by rewrite <- elem_of_elements.
    + intros (s & t & Hs & Hst & Htx). exists t. split; [|done].
      apply HN. right. exists s. by rewrite elem_of_elements.
Qed.

(** The loop over the input, started from a working set closed under
    epsilon transitions. *)
Lemma for_each_step_spec (fuel : nat) (w : list ascii) (cur : gset nat) :
  enough_fuel h ≤ fuel →
  (∀ x y, x ∈ cur → eps_edge h x y → y ∈ cur) →
  ∃ C, for_each w (step fuel) cur h = Return C h ∧
       ∀ x, x ∈ C ↔ ∃ s, s ∈ cur ∧ run h w s x.
Proof.
  intros Hfuel. revert cur. induction w as [|c w IH]; intros cur Hclosed.
  - exists cur. split; [done|]. intros x. split.
    + intros Hx. exists x. split; [done|constructor].
    + intros (s & Hs & Hsx%run_nil_inv). induction Hsx; eauto.
  - simpl. rewrite bind_unfold.
    destruct (step_spec fuel cur c Hfuel) as (C1 & -> & HC1).
    destruct (IH C1) as (C & -> & HC).
    { intros x y (s & t & Hs & Hst & Htx)%HC1 Hxy. apply HC1.
      exists s, t. split; [done|]. split; [done|]. eapply rtc_r; eauto. }
    exists C. split; [done|]. intros x. rewrite (HC x). split.
    + intros (s' & (s & t & Hs & Hst & Hts')%HC1 & Hrun).
      exists s. split; [done|]. eapply run_sym; [done|]. by eapply run_rtc_l.
    + intros (s & Hs & (s1 & s2 & Hs1 & Hsym & Hrun)%run_cons_inv).
      exists s2. split; [|done]. apply HC1. exists s1, s2.
      split; [|split; [done|apply rtc_refl]].
      clear Hsym Hrun. induction Hs1; eauto.
Qed.

(** [check_string] decides acceptance by the automaton, and leaves the
    arena as it found it. *)
Lemma check_string_spec (fuel : nat) (fsm : RegexFSM) (input_str : string) :
  enough_fuel h ≤ fuel →
  ∃ b, check_string fuel fsm input_str h = Return b h ∧
       (b = true ↔ accepts h (start_state fsm) (list_ascii_of_string input_str)).
Proof.
  intros Hfuel. unfold check_string. rewrite bind_unfold.
  destruct (epsilon_closure_spec h fuel {[start_state fsm]}) as (C0 & -> & HC0).
  { etrans; [apply size_start_le|done]. }
  rewrite bind_unfold.
  destruct (for_each_step_spec fuel (list_ascii_of_string input_str) C0 Hfuel)
    as (C & -> & HC).
  { intros x y Hx Hxy. eapply is_closure_closed; [done..|]. by apply rtc_once. }
  destruct (any_is_final_spec (elements C)) as (b & -> & Hb).
  exists b. split; [done|]. rewrite Hb. unfold accepts. split.
  - intros (f & Hf%elem_of_elements%HC & Hfin). destruct Hf as (s & Hs%HC0 & Hrun).
    destruct Hs as (s0 & ->%elem_of_singleton & Hs0).
    exists f. split; [|done]. by eapply run_rtc_l.
  - intros (f & Hrun & Hfin). exists f. split; [|done].
    apply elem_of_elements, HC. exists (start_state fsm). split; [|done].
    apply HC0. exists (start_state fsm). split; [set_solver|apply rtc_refl].
Qed.

End Simulation.

(** ** The effect of the graph operations on the arena *)

Lemma lookup_app_plus {A} (l1 l2 : list A) k : (l1 ++ l2) !! (length l1 + k) = l2 !! k.
Proof. rewrite lookup_app_r by lia. f_equal. lia. Qed.

Lemma trans_app_plus (h l : Heap) k : trans (h ++ l) (length h + k) = trans l k.
Proof. unfold trans. by rewrite lookup_app_plus. Qed.

Lemma trans_app_l (h l : Heap) i : i < length h → trans (h ++ l) i = trans h i.
Proof. intros Hi. unfold trans. by rewrite lookup_app_l. Qed.

Lemma add_transition_eq (self : nat) (sym : symbol) (state : nat) (h : Heap) :
  add_transition self sym state h = Return tt (alter (add_dest sym state) self h).
Proof.
  unfold add_transition. rewrite bind_unfold. unfold get_transitions, set_transitions, trans.
  assert (Halt : ∀ tr, (∀ st, h !! self = Some st →
                        tr = <[sym := default [] (transitions st !! sym) ++ [state]]> (transitions st)) →
                 alter (with_transitions tr) self h = alter (add_dest sym state) self h).
  { intros tr Htr. apply list_alter_ext; [|done]. intros st Hst.
    unfold add_dest. by rewrite (Htr st Hst). }
  destruct (h !! self) as [st|] eqn:Hst; simpl.
  - destruct (transitions st !! sym) as [ds|] eqn:Hds.
    + f_equal. apply Halt. intros st' [= <-]. by rewrite Hds.
    + f_equal. apply Halt. intros st' [= <-]. by rewrite Hds.
  - rewrite lookup_empty. f_equal. apply Halt. done.
Qed.

Lemma add_dest_init (sym : symbol) (t : nat) :
  add_dest sym t (State__init__ None) =
  {| name := None; transitions := {[sym := [t]]}; is_final := false |}.
Proof. unfold add_dest, with_transitions. simpl. by rewrite lookup_empty. Qed.

Lemma add_dest_eps (ds : list nat) (t : nat) :
  add_dest None t (eps_state ds) = eps_state (ds ++ [t]).
Proof.
  unfold add_dest, with_transitions, eps_state. simpl.
  rewrite lookup_singleton_eq. simpl. by rewrite insert_singleton_eq.
Qed.

Lemma bind_new_State {B} (nm : option string) (k : nat → M B) h :
  (new_State nm ≫= k) h = k (length h) (h ++ [State__init__ nm]).
Proof. reflexivity. Qed.

Lemma bind_add_transition {B} self sym state (k : unit → M B) h :
  (add_transition self sym state ≫= k) h = k tt (alter (add_dest sym state) self h).
Proof. by rewrite bind_unfold, add_transition_eq. Qed.

Lemma length_snoc {A} (l : list A) x : length (l ++ [x]) = S (length l).
Proof. rewrite length_app. simpl. lia. Qed.

Lemma alter_snoc_last {A} (f : A → A) (l : list A) x k :
  alter f (length l) (l ++ x :: k) = l ++ f x :: k.
Proof. rewrite <- (Nat.add_0_r (length l)) at 1. by rewrite alter_app_r. Qed.

Lemma build_fragment_for_symbol_eq (c : ascii) (h : Heap) :
  build_fragment_for_symbol c h =
  Return (mkFragment (length h) (S (length h)))
         (h ++ [atom_state c (S (length h)); State__init__ None]).
Proof.
  unfold build_fragment_for_symbol.
  rewrite bind_new_State, bind_new_State, bind_add_transition, length_snoc.
  rewrite <- app_assoc. simpl app. rewrite alter_snoc_last, add_dest_init. done.
Qed.

Lemma apply_star_to_fragment_eq (fragment : NFAFragment) (h : Heap) :
  end_ fragment < length h →
  apply_star_to_fragment fragment h =
  Return (mkFragment (length h) (S (length h)))
         (alter (add_loop_exit (start fragment) (S (length h))) (end_ fragment) h
          ++ [eps_state [start fragment; S (length h)]; State__init__ None]).
Proof.
  intros Hend. unfold apply_star_to_fragment.
  rewrite bind_new_State, bind_new_State, !bind_add_transition, length_snoc.
  rewrite <- app_assoc. simpl app. rewrite !alter_snoc_last.
  rewrite !alter_app_l by (rewrite ?length_alter; lia).
  rewrite list_alter_alter_eq, add_dest_init.
  fold (eps_state [start fragment]). by rewrite add_dest_eps.
Qed.

Lemma apply_plus_to_fragment_eq (fragment : NFAFragment) (h : Heap) :
  end_ fragment < length h →
  apply_plus_to_fragment fragment h =
  Return (mkFragment (start fragment) (length h))
         (alter (add_loop_exit (start fragment) (length h)) (end_ fragment) h
          ++ [State__init__ None]).
Proof.
  intros Hend. unfold apply_plus_to_fragment.
  rewrite bind_new_State, !bind_add_transition.
  rewrite !alter_app_l by (rewrite ?length_alter; lia).
  by rewrite list_alter_alter_eq.
Qed.

Lemma add_loop_exit_init (s e : nat) :
  add_loop_exit s e (State__init__ None) = eps_state [s; e].
Proof.
  unfold add_loop_exit. rewrite add_dest_init. fold (eps_state [s]).
  by rewrite add_dest_eps.
Qed.

Lemma alter_snoc_second {A} (f : A → A) (l : list A) x y k :
  alter f (S (length l)) (l ++ x :: y :: k) = l ++ x :: f y :: k.
Proof. rewrite <- (Nat.add_1_r (length l)). by rewrite alter_app_r. Qed.

Lemma fragment_states_length c rep n :
  length (fragment_states c rep n) =
  if bool_decide (rep = Some "*") then 4 else if bool_decide (rep = Some "+") then 3 else 2.
Proof. unfold fragment_states. by repeat case_bool_decide. Qed.

Lemma fragment_states_pos c rep n : 2 ≤ length (fragment_states c rep n).
Proof. rewrite fragment_states_length. repeat case_bool_decide; lia. Qed.

Lemma add_atom_eq (c : ascii) (rep : option ascii) (base : option (nat * nat)) (h : Heap) :
  base_ok base h →
  add_atom c rep base h =
  Return (Some (extend_base base (fragment_start rep (length h))
                  (length h + length (fragment_states c rep (length h)) - 1)))
         (link_base base (fragment_start rep (length h)) h
          ++ fragment_states c rep (length h)).
Proof.
  intros Hbase. unfold add_atom. rewrite bind_unfold, build_fragment_for_symbol_eq.
  rewrite bind_unfold. rewrite fragment_states_length. unfold fragment_states, fragment_start.
  assert (Hlink : ∀ s e l, (match base with
            | None => ret (Some (s, e))
            | Some (base_start, base_end) =>
                add_transition base_end None s ;; ret (Some (base_start, e))
            end) (h ++ l) =
          Return (Some (extend_base base s e)) (link_base base s h ++ l)).
  { intros s e l. destruct base as [[bs be]|]; [|done]. simpl in Hbase.
    rewrite bind_add_transition. simpl. by rewrite alter_app_l. }
  replace (length h + 1) with (S (length h)) by lia.
  case_bool_decide as Hstar; [|case_bool_decide as Hplus].
  - rewrite apply_star_to_fragment_eq by (rewrite length_app; simpl; lia).
    cbn [start end_]. rewrite alter_snoc_second, add_loop_exit_init.
    rewrite <- app_assoc. cbn [app]. rewrite length_app. cbn [length].
    rewrite Hlink. repeat f_equal; lia.
  - rewrite apply_plus_to_fragment_eq by (rewrite length_app; simpl; lia).
    cbn [start end_]. rewrite alter_snoc_second, add_loop_exit_init.
    rewrite <- app_assoc. cbn [app]. rewrite length_app. cbn [length].
    rewrite Hlink. repeat f_equal; lia.
  - unfold ret at 1. cbn [start end_]. rewrite Hlink. repeat f_equal; lia.
Qed.

(** ** The compiler *)

Lemma flags_app (h l : Heap) : flags (h ++ l) = flags h ++ flags l.
Proof. apply fmap_app. Qed.

Lemma flags_alter_add_dest sym t i (h : Heap) :
  flags (alter (add_dest sym t) i h) = flags h.
Proof.
  unfold flags. apply list_eq. intros j. rewrite !list_lookup_fmap, list_lookup_alter.
  case_decide; [subst|done]. by destruct (h !! j).
Qed.

Lemma flags_link_base base s h : flags (link_base base s h) = flags h.
Proof. destruct base as [[??]|]; [apply flags_alter_add_dest|done]. Qed.

Lemma length_link_base base s h : length (link_base base s h) = length h.
Proof. destruct base as [[??]|]; [apply length_alter|done]. Qed.

Lemma flags_fragment_states c rep n :
  flags (fragment_states c rep n) = replicate (length (fragment_states c rep n)) false.
Proof. unfold fragment_states. by repeat case_bool_decide. Qed.

Section CompilerProofs.

Variable isalnum : ascii → bool.

(** The four ways through one iteration of the [while] loop. *)
Lemma build_loop_operator c rest base h :
  is_operator c = true →
  build_loop isalnum (c :: rest) base h = Raise (ValueError (InvalidPatternStart c)).
Proof. intros Hc. simpl. by rewrite Hc. Qed.

Lemma build_loop_unsupported c rest base h :
  is_operator c = false → is_atom isalnum c = false →
  build_loop isalnum (c :: rest) base h = Raise (ValueError (UnsupportedSymbol c)).
Proof. unfold is_atom. intros Hc Ha. simpl. by rewrite Hc, Ha. Qed.

Lemma build_loop_repeated c r rest base h :
  is_operator c = false → is_atom isalnum c = true → is_operator r = true →
  build_loop isalnum (c :: r :: rest) base h =
  (add_atom c (Some r) base ≫= build_loop isalnum rest) h.
Proof. unfold is_atom. intros Hc Ha Hr. simpl. by rewrite Hc, Ha, Hr. Qed.

Lemma build_loop_single c rest base h :
  is_operator c = false → is_atom isalnum c = true → head (is_operator <$> rest) ≠ Some true →
  build_loop isalnum (c :: rest) base h =
  (add_atom c None base ≫= build_loop isalnum rest) h.
Proof.
  unfold is_atom. intros Hc Ha Hr. simpl. rewrite Hc, Ha.
  destruct rest as [|r rest]; [done|]. simpl in Hr.
  destruct (is_operator r); [done|done].
Qed.

(** What one compiled atom leaves behind. *)
Lemma add_atom_spec c rep base h :
  base_ok base h →
  ∃ bs h',
    add_atom c rep base h = Return (Some (bs, length h' - 1)) h' ∧
    length h < length h' ∧
    flags h' = flags h ++ replicate (length h' - length h) false ∧
    (∀ bs0 be0, base = Some (bs0, be0) → bs = bs0).
Proof.
  intros Hbase. rewrite add_atom_eq by done.
  pose proof (fragment_states_pos c rep (length h)) as Hpos.
  set (s := fragment_start rep (length h)).
  set (fr := fragment_states c rep (length h)) in *.
  exists (extend_base base s (length h + length fr - 1)).1, (link_base base s h ++ fr).
  assert (Hlen : length (link_base base s h ++ fr) = length h + length fr).
  { by rewrite length_app, length_link_base. }
  rewrite Hlen. split; [|split; [|split]].
  - do 2 f_equal. by destruct base as [[??]|].
  - lia.
  - rewrite flags_app, flags_link_base. unfold fr. rewrite flags_fragment_states.
    do 2 f_equal. fold fr. lia.
  - intros bs0 be0 ->. done.
Qed.

(** The loop stops with the message of the first defect; a pattern
    without defect is compiled, allocating non-final states only. *)
Lemma build_loop_spec (n : nat) : ∀ (rest : list ascii) (no_atom : bool) base h,
  length rest ≤ n →
  base_ok base h →
  (no_atom = false → head (is_operator <$> rest) ≠ Some true) →
  match first_defect isalnum no_atom rest with
  | Some m => build_loop isalnum rest base h = Raise (ValueError m)
  | None =>
      ∃ base' h',
        build_loop isalnum rest base h = Return base' h' ∧
        base_ok base' h' ∧
        flags h' = flags h ++ replicate (length h' - length h) false ∧
        length h ≤ length h' ∧
        (rest = [] → base' = base ∧ h' = h) ∧
        (rest ≠ [] → ∃ bs, base' = Some (bs, length h' - 1) ∧ length h < length h')
  end.
Proof.
  induction n as [|n IH]; intros rest no_atom base h Hlen Hbase Hhead.
  - destruct rest; [|simpl in Hlen; lia]. simpl.
    exists base, h. rewrite Nat.sub_diag, app_nil_r. done.
  - destruct rest as [|c rest].
    { simpl. exists base, h. rewrite Nat.sub_diag, app_nil_r. done. }
    simpl in Hlen. cbn [first_defect].
    destruct (is_operator c) eqn:Hc.
    { destruct no_atom.
      - by apply build_loop_operator.
      - exfalso. apply Hhead; [done|]. simpl. by rewrite Hc. }
    fold (is_atom isalnum c). destruct (is_atom isalnum c) eqn:Ha.
    2:{ by apply build_loop_unsupported. }
    assert (Hstep : ∀ rep rest', length rest' ≤ n →
              build_loop isalnum (c :: rest) base h =
                (add_atom c rep base ≫= build_loop isalnum rest') h →
              ∀ b', (b' = false → head (is_operator <$> rest') ≠ Some true) →
              match first_defect isalnum b' rest' with
              | Some m => build_loop isalnum (c :: rest) base h = Raise (ValueError m)
              | None =>
                  ∃ base' h',
                    build_loop isalnum (c :: rest) base h = Return base' h' ∧
                    base_ok base' h' ∧
                    flags h' = flags h ++ replicate (length h' - length h) false ∧
                    length h ≤ length h' ∧
                    (c :: rest = [] → base' = base ∧ h' = h) ∧
                    (c :: rest ≠ [] → ∃ bs, base' = Some (bs, length h' - 1) ∧
                                            length h < length h')
              end).
    { intros rep rest' Hlen' Heq b' Hb'. rewrite Heq.
      destruct (add_atom_spec c rep base h Hbase) as (bs & h1 & Hadd & Hlt & Hfl & Hbs).
      rewrite bind_unfold, Hadd.
      assert (Hok1 : base_ok (Some (bs, length h1 - 1)) h1) by (simpl; lia).
      specialize (IH rest' b' (Some (bs, length h1 - 1)) h1 Hlen' Hok1 Hb').
      destruct (first_defect isalnum b' rest'); [done|].
      destruct IH as (base' & h' & Hrun & Hok & Hfl' & Hle & Hnil & Hcons).
      exists base', h'. split; [done|]. split; [done|]. split; [|split; [lia|split; [done|]]].
      - rewrite Hfl', Hfl, <- app_assoc, <- replicate_add. do 2 f_equal. lia.
      - intros _. destruct rest' as [|r' rest''].
        + destruct (Hnil eq_refl) as [-> ->]. eauto.
        + destruct Hcons as (bs' & -> & Hlt'); [done|]. exists bs'. split; [done|lia]. }
    destruct rest as [|r rest2].
    { apply (Hstep None []); [simpl; lia| |done].
      by apply build_loop_single. }
    destruct (is_operator r) eqn:Hr.
    + cbn [first_defect]. rewrite Hr.
      apply (Hstep (Some r) rest2); [simpl in Hlen; lia| |done].
      by apply build_loop_repeated.
    + apply (Hstep None (r :: rest2)); [lia| |].
      * apply build_loop_single; [done..|]. simpl. by rewrite Hr.
      * intros _. simpl. by rewrite Hr.
Qed.

End CompilerProofs.

(** ** Code that only reads the arena *)

Lemma read_only_ret {A} (a : A) : read_only (ret a).
Proof. intros h a' h' [= _ ->]. done. Qed.

Lemma read_only_bind {A B} (m : M A) (k : A → M B) :
  read_only m → (∀ a, read_only (k a)) → read_only (m ≫= k).
Proof.
  intros Hm Hk h b h'. rewrite bind_unfold. destruct (m h) as [a h1| |] eqn:Hmh; [|done..].
  intros Hkh. apply Hm in Hmh as ->. by eapply Hk.
Qed.

Lemma read_only_get_transitions s : read_only (get_transitions s).
Proof. intros h a h' [= _ ->]. done. Qed.

Lemma read_only_get_is_final s : read_only (get_is_final s).
Proof. intros h a h' [= _ ->]. done. Qed.

Lemma read_only_for_each {A S} (l : list A) (body : S → A → M S) (acc : S) :
  (∀ acc x, read_only (body acc x)) → read_only (for_each l body acc).
Proof.
  intros Hbody. revert acc. induction l as [|x l IH]; intros acc; simpl.
  - apply read_only_ret.
  - apply read_only_bind; [apply Hbody|apply IH].
Qed.

Lemma read_only_closure_loop fuel stack closure :
  read_only (closure_loop fuel stack closure).
Proof.
  revert stack closure. induction fuel as [|fuel IH]; intros stack closure; simpl.
  - destruct (last stack); [done|apply read_only_ret].
  - destruct (last stack); [|apply read_only_ret].
    apply read_only_bind; [apply read_only_get_transitions|].
    intros tr. destruct (tr !! None); apply IH.
Qed.

Lemma read_only_epsilon_closure fuel states : read_only (epsilon_closure fuel states).
Proof. apply read_only_closure_loop. Qed.

Lemma read_only_collect c next state : read_only (collect c next state).
Proof.
  apply read_only_bind; [apply read_only_get_transitions|].
  intros tr. apply read_only_ret.
Qed.

Lemma read_only_step fuel cur c : read_only (step fuel cur c).
Proof.
  apply read_only_bind.
  - apply read_only_for_each. intros. apply read_only_collect.
  - intros. apply read_only_epsilon_closure.
Qed.

Lemma read_only_any_is_final l : read_only (any_is_final l).
Proof.
  induction l as [|s l IH]; simpl; [apply read_only_ret|].
  apply read_only_bind; [apply read_only_get_is_final|].
  intros []; [apply read_only_ret|apply IH].
Qed.

Lemma read_only_check_string fuel fsm input_str :
  read_only (check_string fuel fsm input_str).
Proof.
  apply read_only_bind; [apply read_only_epsilon_closure|]. intros C0.
  apply read_only_bind; [|intros; apply read_only_any_is_final].
  apply read_only_for_each. intros. apply read_only_step.
Qed.

(** ** Compiling a whole pattern *)

Lemma flags_set_final (h : Heap) (F : list bool) (k : nat) :
  flags h = F ++ replicate (S k) false →
  flags (alter (with_is_final true) (length h - 1) h) = F ++ replicate k false ++ [true].
Proof.
  intros Hfl. destruct h as [|st h _] using rev_ind.
  { destruct F; discriminate. }
  rewrite length_app. simpl. replace (length h + 1 - 1) with (length h) by lia.
  rewrite alter_snoc_last. rewrite flags_app in Hfl |- *.
  change (flags [st]) with [is_final st] in Hfl.
  rewrite replicate_S_end, app_assoc in Hfl. apply app_inj_tail in Hfl as [-> _].
  by rewrite <- app_assoc.
Qed.

Lemma final_flags (h : Heap) i : final h i = default false (flags h !! i).
Proof. unfold final, flags. rewrite list_lookup_fmap. by destruct (h !! i). Qed.

Section InitProofs.

Variable isalnum : ascii → bool.

Lemma _build_nfa_eq (pattern : string) (h : Heap) base h' :
  build_loop isalnum (list_ascii_of_string pattern) None h = Return base h' →
  _build_nfa isalnum pattern h =
  match base with
  | None => Return (length h')
              (alter (with_is_final true) (length h') (h' ++ [State__init__ None]))
  | Some (base_start, base_end) =>
      Return base_start (alter (with_is_final true) base_end h')
  end.
Proof.
  intros Hrun. unfold _build_nfa. rewrite (bind_Return _ _ _ _ _ Hrun).
  by destruct base as [[??]|].
Qed.

(** The constructor raises [ValueError] with the message of the first
    defect of the pattern.  For a pattern without defect it returns; in
    the arena it leaves, the states that were there keep their flags, and
    of the new ones the last allocated, [base_end], is final and no
    other. *)
Lemma RegexFSM__init__spec (pattern : string) (h0 : Heap) :
  match first_defect isalnum true (list_ascii_of_string pattern) with
  | Some m => RegexFSM__init__ isalnum pattern h0 = Raise (ValueError m)
  | None =>
      ∃ fsm h1 k,
        RegexFSM__init__ isalnum pattern h0 =
          Return fsm (alter (with_is_final true) (length h1 - 1) h1) ∧
        length h1 = length h0 + S k ∧
        flags (alter (with_is_final true) (length h1 - 1) h1)
          = flags h0 ++ replicate k false ++ [true] ∧
        (pattern = EmptyString →
           start_state fsm = length h0 ∧ h1 = h0 ++ [State__init__ None]) ∧
        (pattern ≠ EmptyString →
           build_loop isalnum (list_ascii_of_string pattern) None h0
           = Return (Some (start_state fsm, length h1 - 1)) h1)
  end.
Proof.
  pose proof (build_loop_spec isalnum (length (list_ascii_of_string pattern))
                (list_ascii_of_string pattern) true None h0 (le_n _) I) as Hloop.
  destruct (first_defect isalnum true (list_ascii_of_string pattern)) as [m|].
  - unfold RegexFSM__init__, _build_nfa.
    rewrite bind_unfold, (bind_unfold (build_loop _ _ _)), Hloop; done.
  - destruct Hloop as (base' & h' & Hrun & Hok & Hfl & Hle & Hnil & Hcons); [done|].
    unfold RegexFSM__init__. rewrite bind_unfold, (_build_nfa_eq _ _ _ _ Hrun).
    destruct pattern as [|c pattern].
    + destruct (Hnil eq_refl) as [-> ->].
      exists (mkRegexFSM (length h0)), (h0 ++ [State__init__ None]), 0.
      rewrite length_snoc. replace (S (length h0) - 1) with (length h0) by lia.
      split; [done|]. split; [lia|]. split; [|done].
      rewrite alter_snoc_last, flags_app. done.
    + destruct Hcons as (bs & -> & Hlt); [done|].
      exists (mkRegexFSM bs), h', (length h' - length h0 - 1).
      split; [done|]. split; [lia|]. split; [|done].
      apply flags_set_final. rewrite Hfl. do 2 f_equal. lia.
Qed.

End InitProofs.

(** ** Properties of the closure *)

Lemma is_closure_bound (h : Heap) (S C : gset nat) :
  is_closure h S C → C ⊆ S ∪ all_targets h.
Proof.
  intros HC x (s & Hs & Hsx)%HC. apply rtc_inv_r in Hsx as [->|(y & _ & Hyx)].
  - set_solver.
  - apply elem_of_union_r. by eapply dests_all_targets.
Qed.

(** C7: for every arena, cyclic or not, and every set of states,
    [epsilon_closure] returns once it has fuel for the states given and
    the destinations of the arena; it returns exactly the states reachable
    from the set by zero or more epsilon transitions, among them the set
    itself, and leaves the arena unchanged.  The result does not depend on
    the order in which [list(states)] enumerates the set. *)
Theorem epsilon_closure_reachable (h : Heap) (states : gset nat) (fuel : nat) :
  size (states ∪ all_targets h) ≤ fuel →
  ∃ C,
    epsilon_closure fuel states h = Return C h ∧
    (∀ x, x ∈ C ↔ ∃ s, s ∈ states ∧ rtc (eps_edge h) s x) ∧
    states ⊆ C ∧
    (∀ stack, stack ≡ₚ elements states → closure_loop fuel stack states h = Return C h).
Proof.
  intros Hfuel. destruct (epsilon_closure_spec h fuel states Hfuel) as (C & HC & Hcl).
  exists C. split; [done|]. split; [done|]. split.
  - intros x Hx. apply Hcl. exists x. split; [done|apply rtc_refl].
  - intros stack Hperm.
    destruct (closure_loop_spec h fuel stack states) as (C' & HC' & Hsub & Hreach & Hsucc).
    + intros x Hx. rewrite Hperm in Hx. by apply elem_of_elements.
    + rewrite Hperm. change (length (elements states)) with (size states).
      assert (Hdisj : states ## all_targets h ∖ states) by set_solver.
      rewrite <- (size_union _ _ Hdisj).
      etrans; [|exact Hfuel]. apply subseteq_size. set_solver.
    + rewrite HC'. f_equal. apply (is_closure_unique h states); [|done].
      intros x. split; [by apply Hreach|].
      intros (s & Hs & Hsx). apply Hsub in Hs.
      induction Hsx as [s|s t x Hst _ IH]; [done|].
      apply IH. destruct (Hsucc s t Hs Hst) as [?|[Hin Hn]]; [done|].
      exfalso. apply Hn. rewrite Hperm. by apply elem_of_elements.
Qed.

Lemma epsilon_closure_reachable_witness :
  size ({[0]} ∪ all_targets cyclic_heap) ≤ 2 ∧
  ∃ C,
    epsilon_closure 2 {[0]} cyclic_heap = Return C cyclic_heap ∧
    (∀ x, x ∈ C ↔ ∃ s, s ∈ ({[0]} : gset nat) ∧ rtc (eps_edge cyclic_heap) s x) ∧
    {[0]} ⊆ C ∧
    (∀ stack, stack ≡ₚ elements ({[0]} : gset nat) →
              closure_loop 2 stack {[0]} cyclic_heap = Return C cyclic_heap).
Proof.
  assert (H : size ({[0]} ∪ all_targets cyclic_heap) ≤ 2) by (vm_compute; lia).
  split; [exact H|]. exact (epsilon_closure_reachable cyclic_heap {[0]} 2 H).
Defined.

(** C10: closing a closed set adds nothing: [epsilon_closure] applied to
    its own result returns that result. *)
Theorem epsilon_closure_idempotent (h : Heap) (states : gset nat) (fuel : nat) :
  size (states ∪ all_targets h) ≤ fuel →
  ∃ C,
    epsilon_closure fuel states h = Return C h ∧
    epsilon_closure fuel C h = Return C h.
Proof.
  intros Hfuel. destruct (epsilon_closure_spec h fuel states Hfuel) as (C & HC & Hcl).
  exists C. split; [done|].
  destruct (epsilon_closure_spec h fuel C) as (C' & HC' & Hcl').
  - etrans; [|exact Hfuel]. apply subseteq_size.
    pose proof (is_closure_bound h states C Hcl). set_solver.
  - rewrite HC'. f_equal. apply (is_closure_unique h C); [done|].
    by eapply is_closure_idemp.
Qed.

Lemma epsilon_closure_idempotent_witness :
  size ({[0]} ∪ all_targets cyclic_heap) ≤ 2 ∧
  ∃ C,
    epsilon_closure 2 {[0]} cyclic_heap = Return C cyclic_heap ∧
    epsilon_closure 2 C cyclic_heap = Return C cyclic_heap.
Proof.
  assert (H : size ({[0]} ∪ all_targets cyclic_heap) ≤ 2) by (vm_compute; lia).
  split; [exact H|]. exact (epsilon_closure_idempotent cyclic_heap {[0]} 2 H).
Defined.

(** ** Properties of the matcher *)

(** C6: on every arena, in particular the one left by a successful
    compilation, and for every input string, [check_string] with enough
    fuel returns a boolean: it neither raises nor runs out of fuel.  On
    the empty input the boolean is [true] exactly when some final state
    can be reached from the start state by epsilon transitions alone,
    that is, when the epsilon closure of the start state holds a final
    state. *)
Theorem check_string_total (h : Heap) (fsm : RegexFSM) (input_str : string) (fuel : nat) :
  enough_fuel h ≤ fuel →
  (∃ b, check_string fuel fsm input_str h = Return b h) ∧
  (∃ b0,
     check_string fuel fsm EmptyString h = Return b0 h ∧
     (b0 = true ↔ ∃ f, rtc (eps_edge h) (start_state fsm) f ∧ final h f = true)).
Proof.
  intros Hfuel. split.
  - destruct (check_string_spec h fuel fsm input_str Hfuel) as (b & Hb & _).
    by exists b.
  - destruct (check_string_spec h fuel fsm EmptyString Hfuel) as (b0 & Hb0 & Hacc).
    exists b0. split; [done|]. rewrite Hacc. unfold accepts. simpl.
    split; intros (f & Hrun & Hfin); exists f; (split; [|done]);
      by apply run_nil_inv.
Qed.

Lemma check_string_total_witness :
  enough_fuel (star_states "a" 0) ≤ 4 ∧
  (∃ b, check_string 4 (mkRegexFSM 2) "b" (star_states "a" 0)
        = Return b (star_states "a" 0)) ∧
  (∃ b0,
     check_string 4 (mkRegexFSM 2) EmptyString (star_states "a" 0)
     = Return b0 (star_states "a" 0) ∧
     (b0 = true ↔
      ∃ f, rtc (eps_edge (star_states "a" 0)) 2 f ∧
           final (star_states "a" 0) f = true)).
Proof.
  assert (H : enough_fuel (star_states "a" 0) ≤ 4) by (vm_compute; lia).
  split; [exact H|].
  exact (check_string_total (star_states "a" 0) (mkRegexFSM 2) "b" 4 H).
Defined.



(** ** Compilation errors *)

Section Defects.

Variable isalnum : ascii → bool.

Lemma not_atom_unsupported c :
  is_operator c = false → isalnum c || bool_decide (c = ".") = false →
  unsupported isalnum c.
Proof.
  intros Hop [Hal Hdot]%orb_false_iff. apply bool_decide_eq_false in Hdot. done.
Qed.

Lemma first_defect_unsupported p : ∀ no_atom c,
  first_defect isalnum no_atom p = Some (UnsupportedSymbol c) →
  c ∈ p ∧ unsupported isalnum c.
Proof.
  induction p as [|x p IH]; intros no_atom c; simpl; [done|].
  destruct (is_operator x) eqn:Hx.
  - destruct no_atom; [done|]. intros [??]%IH. split; [by right|done].
  - destruct (isalnum x || bool_decide (x = ".")) eqn:Ha.
    + intros [??]%IH. split; [by right|done].
    + intros [= <-]. split; [left|]. by apply not_atom_unsupported.
Qed.

Lemma first_defect_invalid p : ∀ no_atom c,
  first_defect isalnum no_atom p = Some (InvalidPatternStart c) →
  is_operator c = true ∧
  ((no_atom = true ∧ ∃ r, p = c :: r) ∨
   (∃ l c1 r, p = l ++ c1 :: c :: r ∧ is_operator c1 = true)).
Proof.
  induction p as [|x p IH]; intros no_atom c; simpl; [done|].
  destruct (is_operator x) eqn:Hx.
  - destruct no_atom.
    + intros [= <-]. split; [done|]. left. eauto.
    + intros [Hc [[_ [r ->]]|(l & c1 & r & -> & Hc1)]]%IH; (split; [done|right]).
      * by exists [], x, r.
      * by exists (x :: l), c1, r.
  - destruct (isalnum x || bool_decide (x = ".")) eqn:Ha; [|done].
    intros [Hc [[? _]|(l & c1 & r & -> & Hc1)]]%IH; [done|].
    split; [done|right]. by exists (x :: l), c1, r.
Qed.

Lemma first_defect_none p : ∀ no_atom,
  first_defect isalnum no_atom p = None →
  (∀ c, c ∈ p → ¬ unsupported isalnum c) ∧
  (no_atom = true → ∀ c r, p = c :: r → is_operator c = false) ∧
  (∀ l c1 c2 r, p = l ++ c1 :: c2 :: r →
                is_operator c1 = true → is_operator c2 = true → False).
Proof.
  induction p as [|x p IH]; intros no_atom; simpl.
  { intros _. split; [by intros c ?%elem_of_nil|]. split; [done|].
    intros [|??] ???; done. }
  destruct (is_operator x) eqn:Hx.
  - destruct no_atom; [done|]. intros (Hun & Hhead & Htwo)%IH.
    split; [|split; [done|]].
    + intros c [->|Hc]%elem_of_cons; [|by apply Hun].
      intros (_ & _ & Hop). congruence.
    + intros [|y l] c1 c2 r; simpl.
      * intros [= <- ->] _ Hc2. rewrite (Hhead eq_refl c2 r eq_refl) in Hc2. done.
      * intros [= <- ->]. by apply (Htwo l c1 c2 r).
  - destruct (isalnum x || bool_decide (x = ".")) eqn:Ha; [|done].
    intros (Hun & Hhead & Htwo)%IH. split; [|split].
    + intros c [->|Hc]%elem_of_cons; [|by apply Hun].
      intros (Hal & Hdot & _). apply orb_true_iff in Ha as [Ha|Ha]; [congruence|].
      by apply bool_decide_eq_true in Ha.
    + intros _ c r [= <- _]. done.
    + intros [|y l] c1 c2 r; simpl.
      * intros [= <- ->] Hc1. congruence.
      * intros [= <- ->]. by apply (Htwo l c1 c2 r).
Qed.

(** C5, as the code has it: compilation fails exactly when the pattern
    has an operator without a preceding atom or an unsupported character,
    and succeeds on every other pattern.  It raises one [ValueError], the
    one for the leftmost defect: with the "invalid pattern" message only
    at an operator that starts the pattern or follows another operator,
    with the "unsupported symbol" message only at a character that is
    neither alphanumeric, nor the wildcard, nor an operator.  The two
    failures share the exception class and differ by their message. *)
Theorem compile_errors (pattern : string) (h0 : Heap) :
  let p := list_ascii_of_string pattern in
  ((∃ e, RegexFSM__init__ isalnum pattern h0 = Raise e) ↔
     dangling_operator p ∨ unsupported_symbol isalnum p) ∧
  ((∃ fsm h, RegexFSM__init__ isalnum pattern h0 = Return fsm h) ↔
     ¬ dangling_operator p ∧ ¬ unsupported_symbol isalnum p) ∧
  (∀ e, RegexFSM__init__ isalnum pattern h0 = Raise e ↔
        ∃ m, first_defect isalnum true p = Some m ∧ e = ValueError m) ∧
  (∀ c, RegexFSM__init__ isalnum pattern h0 = Raise (ValueError (InvalidPatternStart c)) →
        is_operator c = true ∧
        ((∃ r, p = c :: r) ∨ (∃ l c1 r, p = l ++ c1 :: c :: r ∧ is_operator c1 = true))) ∧
  (∀ c, RegexFSM__init__ isalnum pattern h0 = Raise (ValueError (UnsupportedSymbol c)) →
        c ∈ p ∧ unsupported isalnum c) ∧
  (∀ c c', ValueError (InvalidPatternStart c) ≠ ValueError (UnsupportedSymbol c')).
Proof.
  intros p. pose proof (RegexFSM__init__spec isalnum pattern h0) as Hspec. fold p in Hspec.
  assert (Hraise : ∀ e, RegexFSM__init__ isalnum pattern h0 = Raise e ↔
                        ∃ m, first_defect isalnum true p = Some m ∧ e = ValueError m).
  { intros e. destruct (first_defect isalnum true p) as [m|].
    - rewrite Hspec. split; [intros [= <-]; eauto|]. by intros (m' & [= <-] & ->).
    - destruct Hspec as (fsm & h1 & k & -> & _). split; [done|]. by intros (m & ? & _). }
  assert (Hdefect : ∀ m, first_defect isalnum true p = Some m →
                         dangling_operator p ∨ unsupported_symbol isalnum p).
  { intros [c|c] Hm.
    - left. apply first_defect_invalid in Hm as [Hc [[_ [r Hp]]|(l & c1 & r & Hp & Hc1)]].
      + left. eauto.
      + right. by exists l, c1, c, r.
    - right. apply first_defect_unsupported in Hm as [??]. by exists c. }
  assert (Hclean : first_defect isalnum true p = None →
                   ¬ dangling_operator p ∧ ¬ unsupported_symbol isalnum p).
  { intros (Hun & Hhead & Htwo)%first_defect_none. split.
    - intros [(c & r & Hp & Hc)|(l & c1 & c2 & r & Hp & Hc1 & Hc2)].
      + rewrite (Hhead eq_refl c r Hp) in Hc. done.
      + by eapply Htwo.
    - intros (c & Hc & Hu). by eapply Hun. }
  split; [|split; [|split; [done|split; [|split]]]].
  - split.
    + intros (e & (m & Hm & _)%Hraise). by eapply Hdefect.
    + intros Hd. destruct (first_defect isalnum true p) as [m|] eqn:Hm.
      * exists (ValueError m). apply Hraise. eauto.
      * destruct (Hclean eq_refl). tauto.
  - split.
    + intros (fsm & h & Hret). destruct (first_defect isalnum true p) as [m|] eqn:Hm.
      * rewrite Hspec in Hret. done.
      * by apply Hclean.
    + intros [Hnd Hnu]. destruct (first_defect isalnum true p) as [m|] eqn:Hm.
      * destruct (Hdefect m eq_refl); tauto.
      * destruct Hspec as (fsm & h1 & k & -> & _). eauto.
  - intros c (m & Hm & [= <-])%Hraise.
    apply first_defect_invalid in Hm as [Hc [[_ ?]|?]]; auto.
  - intros c (m & Hm & [= <-])%Hraise. by eapply first_defect_unsupported.
  - intros c c'. discriminate.
Qed.

End Defects.

(** The pattern ["*#"] holds the unsupported character ["#"], and yet
    compiling it does not raise the "unsupported symbol" error: the
    operator in front is reported. *)
Lemma compile_errors_counterexample :
  ¬ ((∃ c, RegexFSM__init__ isalnum_ascii "*#" []
           = Raise (ValueError (UnsupportedSymbol c))) ↔
     unsupported_symbol isalnum_ascii (list_ascii_of_string "*#")).
Proof.
  intros [_ H]. destruct H as [c Hc].
  - exists "#". split; [right; left|]. by vm_compute.
  - vm_compute in Hc. discriminate.
Qed.

(** ** Edges of the states the compiler creates *)

Section Edges.

Variable h : Heap.

Lemma dests_lookup s st k : h !! s = Some st → dests h s k = default [] (transitions st !! k).
Proof. intros Hs. unfold dests, trans. by rewrite Hs. Qed.

Lemma final_lookup s st : h !! s = Some st → final h s = is_final st.
Proof. intros Hs. unfold final. by rewrite Hs. Qed.

Lemma eps_edge_atom s c t' t : h !! s = Some (atom_state c t') → ¬ eps_edge h s t.
Proof.
  intros Hs. unfold eps_edge. rewrite (dests_lookup _ _ _ Hs). simpl.
  rewrite lookup_singleton_ne by done. simpl. by intros ?%elem_of_nil.
Qed.

Lemma sym_edge_atom s c t' x t :
  h !! s = Some (atom_state c t') →
  sym_edge h x s t ↔ atom_matches c x = true ∧ t = t'.
Proof.
  intros Hs. unfold sym_edge, atom_matches. rewrite !(dests_lookup _ _ _ Hs). simpl.
  rewrite orb_true_iff, !bool_decide_eq_true, !lookup_singleton.
  destruct (decide (Some c = Some x)) as [Hx|Hx];
    destruct (decide (Some c = Some ".")) as [Hd|Hd]; simpl;
    rewrite ?list_elem_of_singleton, ?elem_of_nil; naive_solver.
Qed.

Lemma eps_edge_eps s ds t : h !! s = Some (eps_state ds) → eps_edge h s t ↔ t ∈ ds.
Proof.
  intros Hs. unfold eps_edge. rewrite (dests_lookup _ _ _ Hs). simpl.
  by rewrite lookup_singleton_eq.
Qed.

Lemma sym_edge_eps s ds x t : h !! s = Some (eps_state ds) → ¬ sym_edge h x s t.
Proof.
  intros Hs. unfold sym_edge. rewrite !(dests_lookup _ _ _ Hs). simpl.
  rewrite !lookup_singleton_ne by done. simpl. rewrite elem_of_nil. tauto.
Qed.

Lemma eps_edge_final s t : h !! s = Some final_state → ¬ eps_edge h s t.
Proof.
  intros Hs. unfold eps_edge. rewrite (dests_lookup _ _ _ Hs). simpl.
  rewrite lookup_empty. simpl. by intros ?%elem_of_nil.
Qed.

Lemma sym_edge_final s x t : h !! s = Some final_state → ¬ sym_edge h x s t.
Proof.
  intros Hs. unfold sym_edge. rewrite !(dests_lookup _ _ _ Hs). simpl.
  rewrite !lookup_empty. simpl. rewrite elem_of_nil. tauto.
Qed.

Lemma rtc_eps_stuck s x :
  (∀ t, ¬ eps_edge h s t) → rtc (eps_edge h) s x → x = s.
Proof. intros Hno [->|(t & Ht & _)]%rtc_inv; [done|]. by apply Hno in Ht. Qed.

(** *** A repetition loop

    [A] is the start of an atom fragment whose end [L] loops back to [A]
    and leaves to the accepting state [E]. *)
Section Loop.

Variables (A L E : nat) (c : ascii).
Hypothesis HA : h !! A = Some (atom_state c L).
Hypothesis HL : h !! L = Some (eps_state [A; E]).
Hypothesis HE : h !! E = Some final_state.

Lemma rtc_eps_loop_end x : rtc (eps_edge h) L x → x = L ∨ x = A ∨ x = E.
Proof.
  intros [->|(t & Ht & Htx)]%rtc_inv; [auto|].
  apply (eps_edge_eps _ _ _ HL) in Ht.
  apply elem_of_cons in Ht as [->|Ht].
  - apply rtc_eps_stuck in Htx; [auto|]. intros t. by eapply eps_edge_atom.
  - apply list_elem_of_singleton in Ht as ->.
    apply rtc_eps_stuck in Htx; [auto|]. intros t. by eapply eps_edge_final.
Qed.

Lemma accepts_atom_start w :
  accepts h A w ↔ ∃ x w', w = x :: w' ∧ atom_matches c x = true ∧ accepts h L w'.
Proof.
  unfold accepts. destruct w as [|x w].
  - split; [|by intros (? & ? & ? & _)].
    intros (f & Hrun%run_nil_inv & Hfin).
    apply rtc_eps_stuck in Hrun as ->; [|intros t; by eapply eps_edge_atom].
    rewrite (final_lookup _ _ HA) in Hfin. done.
  - split.
    + intros (f & (s1 & s2 & Hs1 & Hsym & Hrun)%run_cons_inv & Hfin).
      apply rtc_eps_stuck in Hs1 as ->; [|intros t; by eapply eps_edge_atom].
      apply (sym_edge_atom _ _ _ _ _ HA) in Hsym as [Hm ->].
      exists x, w. eauto.
    + intros (x' & w' & [= <- <-] & Hm & f & Hrun & Hfin).
      exists f. split; [|done]. eapply run_sym; [|done].
      by apply (sym_edge_atom _ _ _ _ _ HA).
Qed.

Lemma accepts_loop_end w : accepts h L w ↔ forallb (atom_matches c) w = true.
Proof.
  induction w as [|x w IH].
  - split; [done|]. intros _. exists E. split.
    + apply run_nil_inv, rtc_once. apply (eps_edge_eps _ _ _ HL). set_solver.
    + by rewrite (final_lookup _ _ HE).
  - simpl. rewrite andb_true_iff, <- IH. split.
    + intros (f & (s1 & s2 & Hs1 & Hsym & Hrun)%run_cons_inv & Hfin).
      apply rtc_eps_loop_end in Hs1 as [->| [->| ->]].
      * by apply (sym_edge_eps _ _ _ _ HL) in Hsym.
      * apply (sym_edge_atom _ _ _ _ _ HA) in Hsym as [Hm ->].
        split; [done|]. by exists f.
      * by apply sym_edge_final in Hsym.
    + intros [Hm (f & Hrun & Hfin)]. exists f. split; [|done].
      apply (run_eps h _ L A); [apply (eps_edge_eps _ _ _ HL); set_solver|].
      eapply run_sym; [|done]. by apply (sym_edge_atom _ _ _ _ _ HA).
Qed.

(** The entry of a one-or-more fragment is [A] itself. *)
Lemma accepts_plus w :
  accepts h A w ↔ w ≠ [] ∧ forallb (atom_matches c) w = true.
Proof.
  rewrite accepts_atom_start. split.
  - intros (x & w' & -> & Hm & Hacc%accepts_loop_end). split; [done|].
    simpl. by rewrite Hm, Hacc.
  - intros [Hne Hall]. destruct w as [|x w']; [done|]. simpl in Hall.
    apply andb_true_iff in Hall as [Hm Hall]. exists x, w'.
    split; [done|]. split; [done|]. by apply accepts_loop_end.
Qed.

(** The entry [S] of a zero-or-more fragment has the same two epsilon
    transitions as [L]. *)
Lemma accepts_star (S : nat) w :
  h !! S = Some (eps_state [A; E]) →
  accepts h S w ↔ forallb (atom_matches c) w = true.
Proof.
  intros HS. rewrite <- accepts_loop_end. unfold accepts.
  assert (Hrtc : ∀ x, rtc (eps_edge h) S x → x = S ∨ x = A ∨ x = E).
  { intros x [->|(t & Ht & Htx)]%rtc_inv; [auto|].
    apply (eps_edge_eps _ _ _ HS) in Ht. apply elem_of_cons in Ht as [->|Ht].
    - apply rtc_eps_stuck in Htx; [auto|]. intros t. by eapply eps_edge_atom.
    - apply list_elem_of_singleton in Ht as ->.
      apply rtc_eps_stuck in Htx; [auto|]. intros t. by eapply eps_edge_final. }
  assert (HSA : eps_edge h S A) by (apply (eps_edge_eps _ _ _ HS); set_solver).
  assert (HLA : eps_edge h L A) by (apply (eps_edge_eps _ _ _ HL); set_solver).
  assert (HSE : eps_edge h S E) by (apply (eps_edge_eps _ _ _ HS); set_solver).
  assert (HLE : eps_edge h L E) by (apply (eps_edge_eps _ _ _ HL); set_solver).
  destruct w as [|x w].
  - split; intros _; exists E; (split; [|by rewrite (final_lookup _ _ HE)]);
      by apply run_nil_inv, rtc_once.
  - split.
    + intros (f & (s1 & s2 & Hs1 & Hsym & Hrun)%run_cons_inv & Hfin).
      apply Hrtc in Hs1 as [->| [->| ->]].
      * by apply (sym_edge_eps _ _ _ _ HS) in Hsym.
      * exists f. split; [|done]. eapply run_eps; [exact HLA|]. by eapply run_sym.
      * by apply sym_edge_final in Hsym.
    + intros (f & (s1 & s2 & Hs1 & Hsym & Hrun)%run_cons_inv & Hfin).
      apply rtc_eps_loop_end in Hs1 as [->| [->| ->]].
      * by apply (sym_edge_eps _ _ _ _ HL) in Hsym.
      * exists f. split; [|done]. eapply run_eps; [exact HSA|]. by eapply run_sym.
      * by apply sym_edge_final in Hsym.
Qed.

End Loop.

End Edges.

(** ** The repetition constructions *)

Lemma dests_dangling (h : Heap) s k : length h ≤ s → dests h s k = [].
Proof.
  intros Hs. unfold dests, trans. rewrite lookup_ge_None_2 by done. simpl.
  by rewrite lookup_empty.
Qed.

Lemma dests_app_l (h l : Heap) s k : s < length h → dests (h ++ l) s k = dests h s k.
Proof. intros Hs. unfold dests. by rewrite trans_app_l. Qed.

Lemma dests_app_plus (h l : Heap) i k : dests (h ++ l) (length h + i) k = dests l i k.
Proof. unfold dests. by rewrite trans_app_plus. Qed.

Lemma dests_app_r (h l : Heap) s k :
  length h ≤ s → dests (h ++ l) s k = dests l (s - length h) k.
Proof.
  intros Hs. replace s with (length h + (s - length h)) at 1 by lia.
  apply dests_app_plus.
Qed.

Lemma dests_cons_0 (st : State) (l : Heap) k :
  dests (st :: l) 0 k = default [] (transitions st !! k).
Proof. reflexivity. Qed.

Lemma dests_cons_S (st : State) (l : Heap) i k : dests (st :: l) (S i) k = dests l i k.
Proof. reflexivity. Qed.

Lemma dests_add_loop_exit (h : Heap) (e s0 e0 s : nat) (k : symbol) :
  e < length h →
  dests (alter (add_loop_exit s0 e0) e h) s k =
  dests h s k ++ added_dests [e] [s0; e0] s k.
Proof.
  intros He. unfold dests, trans, added_dests. rewrite list_lookup_alter.
  destruct (decide (e = s)) as [->|Hne].
  - destruct (lookup_lt_is_Some_2 h s He) as [st Hst]. rewrite Hst. simpl.
    destruct k as [x|].
    + rewrite !lookup_insert_ne by done.
      rewrite bool_decide_eq_false_2 by (by intros [? _]). by rewrite app_nil_r.
    + rewrite !lookup_insert_eq. simpl.
      rewrite bool_decide_eq_true_2 by (split; [done|rewrite elem_of_cons; by left]).
      by rewrite <- app_assoc.
  - rewrite bool_decide_eq_false_2; [by rewrite app_nil_r|].
    intros [_ ?%list_elem_of_singleton]. done.
Qed.

(** What [apply_star_to_fragment] does to the graph: two states are
    allocated, [new_start] and [new_end]; [new_start] and [fragment.end]
    each get the epsilon destinations [fragment.start] and [new_end], in
    that order, and no other destination list changes. *)
Lemma apply_star_to_fragment_graph (fragment : NFAFragment) (h : Heap) :
  end_ fragment < length h →
  ∃ h',
    apply_star_to_fragment fragment h = Return (mkFragment (length h) (S (length h))) h' ∧
    length h' = length h + 2 ∧
    ∀ s k, dests h' s k =
           dests h s k ++
           added_dests [length h; end_ fragment] [start fragment; S (length h)] s k.
Proof.
  intros Hend. eexists. split; [by apply apply_star_to_fragment_eq|].
  split; [rewrite length_app, length_alter; simpl; lia|].
  intros s k. destruct (decide (s < length h)) as [Hs|Hs].
  - rewrite dests_app_l by (by rewrite length_alter).
    rewrite dests_add_loop_exit by done. f_equal. unfold added_dests.
    apply (f_equal (λ b : bool, if b then _ else _)), bool_decide_ext.
    rewrite !elem_of_cons, !elem_of_nil. split; [intuition|].
    intros [Hk [?|[?|[]]]]; [lia|auto].
  - rewrite (dests_dangling h) by lia. simpl.
    rewrite dests_app_r, length_alter by (rewrite length_alter; lia).
    unfold added_dests.
    destruct (s - length h) as [|[|j]] eqn:Hj.
    + assert (s = length h) as -> by lia. destruct k as [x|].
      * rewrite bool_decide_eq_false_2 by (by intros [? _]).
        rewrite dests_cons_0. simpl. by rewrite lookup_singleton_ne.
      * rewrite bool_decide_eq_true_2 by (split; [done|rewrite elem_of_cons; by left]).
        rewrite dests_cons_0. simpl. by rewrite lookup_singleton_eq.
    + rewrite bool_decide_eq_false_2; [done|].
      intros [_ Hin]. rewrite !elem_of_cons, elem_of_nil in Hin. lia.
    + rewrite bool_decide_eq_false_2; [done|].
      intros [_ Hin]. rewrite !elem_of_cons, elem_of_nil in Hin. lia.
Qed.

(** What [apply_plus_to_fragment] does to the graph: one state is
    allocated, [new_end]; [fragment.end] gets the epsilon destinations
    [fragment.start] and [new_end]; no other destination list changes.
    The fragment returned enters at [fragment.start]. *)
Lemma apply_plus_to_fragment_graph (fragment : NFAFragment) (h : Heap) :
  end_ fragment < length h →
  ∃ h',
    apply_plus_to_fragment fragment h = Return (mkFragment (start fragment) (length h)) h' ∧
    length h' = length h + 1 ∧
    ∀ s k, dests h' s k =
           dests h s k ++ added_dests [end_ fragment] [start fragment; length h] s k.
Proof.
  intros Hend. eexists. split; [by apply apply_plus_to_fragment_eq|].
  split; [rewrite length_app, length_alter; simpl; lia|].
  intros s k. destruct (decide (s < length h)) as [Hs|Hs].
  - rewrite dests_app_l by (by rewrite length_alter).
    by rewrite dests_add_loop_exit.
  - rewrite (dests_dangling h) by lia. simpl.
    rewrite dests_app_r, length_alter by (rewrite length_alter; lia).
    unfold added_dests.
    rewrite bool_decide_eq_false_2.
    + by destruct (s - length h) as [|j].
    + intros [_ Hin]. rewrite !elem_of_cons, elem_of_nil in Hin. lia.
Qed.

Section Repetitions.

Variable isalnum : ascii → bool.
Variable c : ascii.
Hypothesis c_not_operator : is_operator c = false.
Hypothesis c_atom : is_atom isalnum c = true.

Lemma alter_final_last (h : Heap) (l : list State) :
  alter (with_is_final true) (length h + length l) (h ++ l ++ [State__init__ None])
  = h ++ l ++ [final_state].
Proof. rewrite app_assoc, <- length_app, alter_snoc_last. by rewrite <- app_assoc. Qed.

Lemma compile_repetition (op : ascii) (h0 : Heap) :
  is_operator op = true →
  ∃ l, fragment_states c (Some op) (length h0) = l ++ [State__init__ None] ∧
  RegexFSM__init__ isalnum (String c (String op EmptyString)) h0 =
  Return (mkRegexFSM (fragment_start (Some op) (length h0))) (h0 ++ l ++ [final_state]).
Proof.
  intros Hop.
  assert (Hfr : ∃ l, fragment_states c (Some op) (length h0) = l ++ [State__init__ None]).
  { unfold fragment_states. repeat case_bool_decide.
    - by eexists [_; _; _].
    - by eexists [_; _].
    - by eexists [_]. }
  destruct Hfr as [l Hl]. exists l. split; [done|].
  assert (Hrun : build_loop isalnum (list_ascii_of_string (String c (String op EmptyString)))
                   None h0
                 = Return (Some (fragment_start (Some op) (length h0), length h0 + length l))
                          (h0 ++ l ++ [State__init__ None])).
  { simpl list_ascii_of_string. rewrite build_loop_repeated by done.
    rewrite bind_unfold, add_atom_eq by done. simpl build_loop. unfold ret.
    rewrite Hl. simpl. rewrite length_app. simpl. do 3 f_equal. lia. }
  unfold RegexFSM__init__. rewrite bind_unfold, (_build_nfa_eq _ _ _ _ _ Hrun).
  by rewrite alter_final_last.
Qed.

Lemma compile_star (h0 : Heap) :
  RegexFSM__init__ isalnum (String c (String "*" EmptyString)) h0 =
  Return (mkRegexFSM (length h0 + 2)) (h0 ++ star_states c (length h0)).
Proof.
  destruct (compile_repetition "*" h0 eq_refl) as (l & Hl & ->).
  unfold fragment_states in Hl. rewrite bool_decide_eq_true_2 in Hl by done.
  change [?a; ?b; ?d; ?e] with ([a; b; d] ++ [e]) in Hl.
  by apply app_inj_tail in Hl as [<- _].
Qed.

Lemma compile_plus (h0 : Heap) :
  RegexFSM__init__ isalnum (String c (String "+" EmptyString)) h0 =
  Return (mkRegexFSM (length h0)) (h0 ++ plus_states c (length h0)).
Proof.
  destruct (compile_repetition "+" h0 eq_refl) as (l & Hl & ->).
  unfold fragment_states in Hl. rewrite bool_decide_eq_false_2 in Hl by done.
  rewrite bool_decide_eq_true_2 in Hl by done.
  change [?a; ?b; ?e] with ([a; b] ++ [e]) in Hl.
  by apply app_inj_tail in Hl as [<- _].
Qed.

Lemma check_string_decides (h : Heap) (fsm : RegexFSM) (input_str : string)
    (fuel : nat) (b : bool) :
  enough_fuel h ≤ fuel →
  (accepts h (start_state fsm) (list_ascii_of_string input_str) ↔ b = true) →
  check_string fuel fsm input_str h = Return b h.
Proof.
  intros Hfuel Hb.
  destruct (check_string_spec h fuel fsm input_str Hfuel) as (b' & -> & Hb').
  f_equal. rewrite <- Hb' in Hb. clear -Hb. destruct b, b'; intuition congruence.
Qed.

Lemma forallb_replicate_atom (k : nat) :
  forallb (atom_matches c) (replicate k c) = true.
Proof.
  induction k as [|k IH]; [done|]. simpl. rewrite IH. unfold atom_matches.
  by rewrite bool_decide_eq_true_2.
Qed.

(** C3: [apply_star_to_fragment] allocates [new_start] and [new_end] and
    adds the epsilon transitions [new_start → F.start], [new_start →
    new_end], [F.end → F.start], [F.end → new_end], and nothing else.
    The automaton compiled from an atom followed by ["*"] accepts a string
    exactly when the atom matches each of its characters; the empty
    string is accepted. *)
Theorem star_matches (h0 : Heap) :
  (∀ fragment h, end_ fragment < length h →
     ∃ h',
       apply_star_to_fragment fragment h
         = Return (mkFragment (length h) (S (length h))) h' ∧
       length h' = length h + 2 ∧
       ∀ s k, dests h' s k =
              dests h s k ++
              added_dests [length h; end_ fragment] [start fragment; S (length h)] s k) ∧
  ∃ fsm h,
    RegexFSM__init__ isalnum (String c (String "*" EmptyString)) h0 = Return fsm h ∧
    ∀ input_str fuel, enough_fuel h ≤ fuel →
      check_string fuel fsm input_str h
        = Return (forallb (atom_matches c) (list_ascii_of_string input_str)) h ∧
      check_string fuel fsm EmptyString h = Return true h.
Proof.
  split; [apply apply_star_to_fragment_graph|].
  exists (mkRegexFSM (length h0 + 2)), (h0 ++ star_states c (length h0)).
  split; [apply compile_star|].
  assert (Hacc : ∀ w, accepts (h0 ++ star_states c (length h0)) (length h0 + 2) w
                      ↔ forallb (atom_matches c) w = true).
  { intros w.
    apply (accepts_star _ (length h0 + 0) (length h0 + 1) (length h0 + 3));
      rewrite lookup_app_plus; simpl; by rewrite ?Nat.add_0_r. }
  intros input_str fuel Hfuel. split; apply check_string_decides; try done; apply Hacc.
Qed.

(** C4: [apply_plus_to_fragment] allocates [new_end] only and returns a
    fragment that enters at [F.start]; it adds the epsilon transitions
    [F.end → F.start] and [F.end → new_end], and no transition that would
    skip the atom.  The automaton compiled from an atom followed by ["+"]
    starts in the start state of the atom's fragment and accepts a string
    exactly when it is not empty and the atom matches each of its
    characters: not the empty string, but every run of one or more copies
    of the atom's character. *)
Theorem plus_matches (h0 : Heap) :
  (∀ fragment h, end_ fragment < length h →
     ∃ h',
       apply_plus_to_fragment fragment h
         = Return (mkFragment (start fragment) (length h)) h' ∧
       length h' = length h + 1 ∧
       ∀ s k, dests h' s k =
              dests h s k ++
              added_dests [end_ fragment] [start fragment; length h] s k) ∧
  ∃ fsm h,
    RegexFSM__init__ isalnum (String c (String "+" EmptyString)) h0 = Return fsm h ∧
    start_state fsm = length h0 ∧
    ∀ input_str fuel, enough_fuel h ≤ fuel →
      check_string fuel fsm input_str h
        = Return (bool_decide (input_str ≠ EmptyString) &&
                  forallb (atom_matches c) (list_ascii_of_string input_str)) h ∧
      check_string fuel fsm EmptyString h = Return false h ∧
      ∀ k, check_string fuel fsm (string_of_list_ascii (replicate (S k) c)) h
           = Return true h.
Proof.
  split; [apply apply_plus_to_fragment_graph|].
  exists (mkRegexFSM (length h0)), (h0 ++ plus_states c (length h0)).
  split; [apply compile_plus|]. split; [done|].
  assert (Hacc : ∀ w, accepts (h0 ++ plus_states c (length h0)) (length h0) w
                      ↔ w ≠ [] ∧ forallb (atom_matches c) w = true).
  { intros w. rewrite <- (Nat.add_0_r (length h0)) at 2.
    apply (accepts_plus _ (length h0 + 0) (length h0 + 1) (length h0 + 2));
      rewrite lookup_app_plus; simpl; by rewrite ?Nat.add_0_r. }
  assert (Hdec : ∀ input_str fuel, enough_fuel (h0 ++ plus_states c (length h0)) ≤ fuel →
            check_string fuel (mkRegexFSM (length h0)) input_str
              (h0 ++ plus_states c (length h0))
            = Return (bool_decide (input_str ≠ EmptyString) &&
                      forallb (atom_matches c) (list_ascii_of_string input_str))
                     (h0 ++ plus_states c (length h0))).
  { intros input_str fuel Hfuel. apply check_string_decides; [done|].
    simpl start_state. rewrite Hacc, andb_true_iff, bool_decide_eq_true.
    split; (intros [Hne Hall]; split; [|done]).
    - intros ->. done.
    - intros Hnil. apply Hne. destruct input_str; [done|discriminate]. }
  intros input_str fuel Hfuel. split; [by apply Hdec|]. split; [by apply Hdec|].
  intros k. rewrite Hdec by done. f_equal.
  rewrite list_ascii_of_string_of_list_ascii, forallb_replicate_atom.
  by rewrite bool_decide_eq_true_2.
Qed.

End Repetitions.

Lemma star_matches_witness :
  is_operator "a" = false ∧ is_atom isalnum_ascii "a" = true ∧
  (∃ h',
     apply_star_to_fragment (mkFragment 0 1) [atom_state "a" 1; State__init__ None]
       = Return (mkFragment 2 3) h' ∧
     length h' = 4 ∧
     ∀ s k, dests h' s k =
            dests [atom_state "a" 1; State__init__ None] s k ++
            added_dests [2; 1] [0; 3] s k) ∧
  ∃ fsm h,
    RegexFSM__init__ isalnum_ascii "a*" [] = Return fsm h ∧
    ∀ input_str fuel, enough_fuel h ≤ fuel →
      check_string fuel fsm input_str h
        = Return (forallb (atom_matches "a") (list_ascii_of_string input_str)) h ∧
      check_string fuel fsm EmptyString h = Return true h.
Proof.
  split; [reflexivity|]. split; [reflexivity|]. split.
  - apply (proj1 (star_matches isalnum_ascii "a" eq_refl eq_refl [])
             (mkFragment 0 1) [atom_state "a" 1; State__init__ None]).
    simpl. lia.
  - exact (proj2 (star_matches isalnum_ascii "a" eq_refl eq_refl [])).
Defined.

Lemma plus_matches_witness :
  is_operator "a" = false ∧ is_atom isalnum_ascii "a" = true ∧
  (∃ h',
     apply_plus_to_fragment (mkFragment 0 1) [atom_state "a" 1; State__init__ None]
       = Return (mkFragment 0 2) h' ∧
     length h' = 3 ∧
     ∀ s k, dests h' s k =
            dests [atom_state "a" 1; State__init__ None] s k ++
            added_dests [1] [0; 2] s k) ∧
  ∃ fsm h,
    RegexFSM__init__ isalnum_ascii "a+" [] = Return fsm h ∧
    start_state fsm = 0 ∧
    ∀ input_str fuel, enough_fuel h ≤ fuel →
      check_string fuel fsm input_str h
        = Return (bool_decide (input_str ≠ EmptyString) &&
                  forallb (atom_matches "a") (list_ascii_of_string input_str)) h ∧
      check_string fuel fsm EmptyString h = Return false h ∧
      ∀ k, check_string fuel fsm (string_of_list_ascii (replicate (S k) "a")) h
           = Return true h.
Proof.
  split; [reflexivity|]. split; [reflexivity|]. split.
  - apply (proj1 (plus_matches isalnum_ascii "a" eq_refl eq_refl [])
             (mkFragment 0 1) [atom_state "a" 1; State__init__ None]).
    simpl. lia.
  - exact (proj2 (plus_matches isalnum_ascii "a" eq_refl eq_refl [])).
Defined.

(** ** Patterns of atoms only *)

Lemma literal_matchb_spec p w : literal_matchb p w = true ↔ literal_match p w.
Proof.
  unfold literal_match. revert w. induction p as [|c p IH]; intros [|x w]; simpl.
  - split; [|done]. intros _. split; [done|]. intros i ?? Hi. by rewrite lookup_nil in Hi.
  - split; [done|]. intros [? _]. done.
  - split; [done|]. intros [? _]. done.
  - rewrite andb_true_iff, IH. unfold atom_matches.
    rewrite orb_true_iff, !bool_decide_eq_true. split.
    + intros [Hm [Hlen Hpos]]. split; [by rewrite Hlen|].
      intros [|i] c' x'; simpl; [by intros [= <-] [= <-]|]. apply Hpos.
    + intros [Hlen Hpos]. split; [by apply (Hpos 0)|].
      split; [by injection Hlen|]. intros i. apply (Hpos (S i)).
Qed.

Lemma chain_states_snoc (p : list ascii) (n : nat) :
  ∃ front, length front = 2 * length p ∧
           ∀ last, chain_states last p n = front ++ [last].
Proof.
  revert n. induction p as [|c p IH]; intros n.
  - by exists [].
  - destruct (IH (n + 2)) as (front & Hlen & Hfront).
    exists (eps_state [n + 1] :: atom_state c (n + 2) :: front).
    split; [simpl; lia|]. intros last. simpl. by rewrite Hfront.
Qed.

Lemma accepts_eps_state (h : Heap) (s : nat) (ds : list nat) (w : list ascii) :
  h !! s = Some (eps_state ds) →
  accepts h s w ↔ ∃ t, t ∈ ds ∧ accepts h t w.
Proof.
  intros Hs. unfold accepts. split.
  - intros (f & Hrun & Hfin). destruct w as [|x w].
    + apply run_nil_inv, rtc_inv in Hrun as [->|(t & Ht & Htf)].
      { rewrite (final_lookup _ _ _ Hs) in Hfin. done. }
      apply (eps_edge_eps _ _ _ _ Hs) in Ht. exists t. split; [done|].
      exists f. split; [by apply run_nil_inv|done].
    + apply run_cons_inv in Hrun as (s1 & s2 & Hs1 & Hsym & Hrun).
      apply rtc_inv in Hs1 as [->|(t & Ht & Hts1)].
      { by apply (sym_edge_eps _ _ _ _ _ Hs) in Hsym. }
      apply (eps_edge_eps _ _ _ _ Hs) in Ht. exists t. split; [done|].
      exists f. split; [|done]. apply run_cons_inv. eauto.
  - intros (t & Ht & f & Hrun & Hfin). exists f. split; [|done].
    eapply run_eps; [|done]. by apply (eps_edge_eps _ _ _ _ Hs).
Qed.

Lemma accepts_final_state (h : Heap) (s : nat) (w : list ascii) :
  h !! s = Some final_state → accepts h s w ↔ w = [].
Proof.
  intros Hs. unfold accepts. split.
  - intros (f & Hrun & Hfin). destruct w as [|x w]; [done|].
    apply run_cons_inv in Hrun as (s1 & s2 & Hs1 & Hsym & Hrun).
    apply rtc_eps_stuck in Hs1 as ->; [|intros t; by apply eps_edge_final].
    by apply sym_edge_final in Hsym.
  - intros ->. exists s. split; [constructor|]. by rewrite (final_lookup _ _ _ Hs).
Qed.

(** Acceptance from the end state of an atom that the atoms [p] follow. *)
Lemma accepts_chain (p : list ascii) : ∀ (h : Heap) (w : list ascii),
  accepts (h ++ chain_states final_state p (length h)) (length h) w
  ↔ literal_matchb p w = true.
Proof.
  induction p as [|c p IH]; intros h w.
  - simpl chain_states. rewrite accepts_final_state.
    + by destruct w.
    + rewrite <- (Nat.add_0_r (length h)). by rewrite lookup_app_plus.
  - simpl chain_states.
    set (H := h ++ eps_state [length h + 1] :: atom_state c (length h + 2)
                :: chain_states final_state p (length h + 2)).
    assert (H0 : H !! length h = Some (eps_state [length h + 1])).
    { unfold H. rewrite <- (Nat.add_0_r (length h)) at 1. by rewrite lookup_app_plus. }
    assert (H1 : H !! (length h + 1) = Some (atom_state c (length h + 2))).
    { unfold H. by rewrite lookup_app_plus. }
    assert (H2 : ∀ w', accepts H (length h + 2) w' ↔ literal_matchb p w' = true).
    { intros w'. specialize (IH (h ++ [eps_state [length h + 1];
                                       atom_state c (length h + 2)]) w').
      rewrite length_app, <- app_assoc in IH. exact IH. }
    rewrite (accepts_eps_state _ _ _ _ H0). split.
    + intros (t & ->%list_elem_of_singleton & Hacc).
      apply (accepts_atom_start _ _ _ _ H1) in Hacc as (x & w' & -> & Hm & Hacc).
      simpl. rewrite Hm. by apply H2.
    + destruct w as [|x w']; [done|]. simpl. intros [Hm Hrest]%andb_true_iff.
      exists (length h + 1). split; [by apply list_elem_of_singleton|].
      apply (accepts_atom_start _ _ _ _ H1). exists x, w'.
      split; [done|]. split; [done|]. by apply H2.
Qed.

(** Acceptance from the start state of a pattern of atoms. *)
Lemma accepts_literal (p : list ascii) (h0 : Heap) (w : list ascii) :
  accepts (h0 ++ literal_states final_state p (length h0)) (length h0) w
  ↔ literal_matchb p w = true.
Proof.
  destruct p as [|c p].
  - apply (accepts_chain [] h0 w).
  - simpl literal_states.
    set (H := h0 ++ atom_state c (length h0 + 1)
                 :: chain_states final_state p (length h0 + 1)).
    assert (H0 : H !! length h0 = Some (atom_state c (length h0 + 1))).
    { unfold H. rewrite <- (Nat.add_0_r (length h0)) at 1. by rewrite lookup_app_plus. }
    assert (H1 : ∀ w', accepts H (length h0 + 1) w' ↔ literal_matchb p w' = true).
    { intros w'. specialize (accepts_chain p (h0 ++ [atom_state c (length h0 + 1)]) w').
      by rewrite length_app, <- app_assoc. }
    rewrite (accepts_atom_start _ _ _ _ H0). split.
    + intros (x & w' & -> & Hm & Hacc). simpl. rewrite Hm. by apply H1.
    + destruct w as [|x w']; [done|]. simpl. intros [Hm Hrest]%andb_true_iff.
      exists x, w'. split; [done|]. split; [done|]. by apply H1.
Qed.

Section Literal.

Variable isalnum : ascii → bool.

Lemma atoms_head_not_operator (p : list ascii) :
  Forall (atom_char isalnum) p → head (is_operator <$> p) ≠ Some true.
Proof. intros [|c p' [Hc _] _]; simpl; [done|]. rewrite Hc. done. Qed.

(** The loop over the atoms [p], entered with [base_end] the state
    allocated last and still without transitions. *)
Lemma build_loop_atoms (p : list ascii) : ∀ (h : Heap) (base_start : nat),
  Forall (atom_char isalnum) p →
  build_loop isalnum p (Some (base_start, length h)) (h ++ [State__init__ None])
  = Return (Some (base_start, length h + 2 * length p))
           (h ++ chain_states (State__init__ None) p (length h)).
Proof.
  induction p as [|c p IH]; intros h base_start Hp.
  - simpl. unfold ret. do 3 f_equal. lia.
  - apply Forall_cons in Hp as [[Hop Hatom] Hp].
    rewrite build_loop_single by auto using atoms_head_not_operator.
    rewrite bind_unfold, add_atom_eq by (simpl; rewrite length_snoc; lia).
    unfold fragment_states, fragment_start, link_base, extend_base.
    rewrite !bool_decide_eq_false_2 by done. rewrite length_snoc.
    rewrite alter_snoc_last, add_dest_init. fold (eps_state [S (length h)]).
    rewrite <- app_assoc. cbn [app length].
    specialize (IH (h ++ [eps_state [S (length h)]; atom_state c (S (length h) + 1)])
                  base_start Hp).
    rewrite length_app, <- !app_assoc in IH. cbn [app length] in IH.
    replace (S (length h) + 2 - 1) with (length h + 2) by lia.
    rewrite IH. cbn [chain_states].
    replace (length h + 1) with (S (length h)) by lia.
    replace (length h + 2) with (S (length h) + 1) by lia.
    do 3 f_equal. lia.
Qed.

Lemma alter_final_chain (h : Heap) (p : list ascii) (n : nat) :
  alter (with_is_final true) (length h + 2 * length p)
        (h ++ chain_states (State__init__ None) p n)
  = h ++ chain_states final_state p n.
Proof.
  destruct (chain_states_snoc p n) as (front & Hlen & Hfront).
  rewrite !Hfront, <- Hlen. apply alter_final_last.
Qed.

Lemma compile_literal (pattern : string) (h0 : Heap) :
  Forall (atom_char isalnum) (list_ascii_of_string pattern) →
  RegexFSM__init__ isalnum pattern h0
  = Return (mkRegexFSM (length h0))
           (h0 ++ literal_states final_state (list_ascii_of_string pattern) (length h0)).
Proof.
  intros Hp. unfold RegexFSM__init__. rewrite bind_unfold.
  destruct (list_ascii_of_string pattern) as [|c p] eqn:Hpat.
  - rewrite (_build_nfa_eq isalnum pattern h0 None h0) by (by rewrite Hpat).
    simpl. by rewrite alter_snoc_last.
  - apply Forall_cons in Hp as [[Hop Hatom] Hp].
    rewrite (_build_nfa_eq isalnum pattern h0
               (Some (length h0, length h0 + 1 + 2 * length p))
               (h0 ++ atom_state c (length h0 + 1)
                   :: chain_states (State__init__ None) p (length h0 + 1))).
    + simpl literal_states.
      pose proof (alter_final_chain (h0 ++ [atom_state c (length h0 + 1)]) p
                    (length h0 + 1)) as Hfin.
      rewrite length_app, <- !app_assoc in Hfin. cbn [app length] in Hfin.
      by rewrite Hfin.
    + rewrite Hpat, build_loop_single by auto using atoms_head_not_operator.
      rewrite bind_unfold, add_atom_eq by done.
      unfold fragment_states, fragment_start, link_base, extend_base.
      rewrite !bool_decide_eq_false_2 by done. cbn [length].
      replace (length h0 + 2 - 1) with (length (h0 ++ [atom_state c (length h0 + 1)]))
        by (rewrite length_app; simpl; lia).
      replace (h0 ++ [atom_state c (length h0 + 1); State__init__ None])
        with ((h0 ++ [atom_state c (length h0 + 1)]) ++ [State__init__ None])
        by (by rewrite <- app_assoc).
      rewrite build_loop_atoms by done.
      rewrite length_app, <- app_assoc. simpl. done.
Qed.

(** C1: a pattern that holds atoms only compiles, and the automaton
    accepts exactly the strings of the pattern's length whose characters
    are, position by position, the pattern's character or any character
    where the pattern has the wildcard.  The pattern ["."] accepts the
    strings of length one, the empty pattern the empty string only. *)
Theorem literal_pattern_matches (pattern : string) (h0 : Heap) :
  Forall (atom_char isalnum) (list_ascii_of_string pattern) →
  ∃ fsm h,
    RegexFSM__init__ isalnum pattern h0 = Return fsm h ∧
    ∀ input_str fuel, enough_fuel h ≤ fuel →
      ∃ b,
        check_string fuel fsm input_str h = Return b h ∧
        (b = true ↔ literal_match (list_ascii_of_string pattern)
                                  (list_ascii_of_string input_str)) ∧
        (pattern = "."%string → (b = true ↔ String.length input_str = 1)) ∧
        (pattern = EmptyString → (b = true ↔ input_str = EmptyString)).
Proof.
  intros Hp. eexists _, _. split; [by apply compile_literal|].
  intros input_str fuel Hfuel.
  exists (literal_matchb (list_ascii_of_string pattern) (list_ascii_of_string input_str)).
  split; [|split; [|split]].
  - apply check_string_decides; [done|]. apply accepts_literal.
  - apply literal_matchb_spec.
  - intros ->. destruct input_str as [|x [|y w]]; simpl.
    + by split.
    + unfold atom_matches. rewrite (bool_decide_eq_true_2 ("." = ".")) by done.
      by rewrite orb_true_r.
    + rewrite andb_false_r. by split.
  - intros ->. destruct input_str; by split.
Qed.

End Literal.

Lemma literal_pattern_matches_witness :
  Forall (atom_char isalnum_ascii) (list_ascii_of_string "a.c") ∧
  ∃ fsm h,
    RegexFSM__init__ isalnum_ascii "a.c" [] = Return fsm h ∧
    ∀ input_str fuel, enough_fuel h ≤ fuel →
      ∃ b,
        check_string fuel fsm input_str h = Return b h ∧
        (b = true ↔ literal_match (list_ascii_of_string "a.c")
                                  (list_ascii_of_string input_str)) ∧
        ("a.c"%string = "."%string → (b = true ↔ String.length input_str = 1)) ∧
        ("a.c"%string = EmptyString → (b = true ↔ input_str = EmptyString)).
Proof.
  assert (H : Forall (atom_char isalnum_ascii) (list_ascii_of_string "a.c")).
  { simpl. repeat constructor. }
  split; [exact H|]. exact (literal_pattern_matches isalnum_ascii "a.c" [] H).
Defined.

(** ** The demonstration script *)

(** With enough fuel the result of [check_string] does not depend on the
    fuel. *)
Lemma check_string_fuel (h : Heap) (fsm : RegexFSM) (input_str : string) (k : nat) :
  check_string (enough_fuel h + k) fsm input_str h
  = check_string (enough_fuel h) fsm input_str h.
Proof.
  destruct (check_string_spec h (enough_fuel h + k) fsm input_str) as (b & -> & Hb); [lia|].
  destruct (check_string_spec h (enough_fuel h) fsm input_str) as (b' & -> & Hb'); [lia|].
  f_equal. rewrite <- Hb' in Hb. clear -Hb. destruct b, b'; intuition congruence.
Qed.

(** C2: the automaton compiled from ["a*4.+hi"] accepts ["aaaaaa4uhi"]
    and ["4uhi"], and rejects ["meow"] and ["4hi"], whatever the fuel
    beyond what suffices. *)
Theorem main_pattern_scenarios :
  ∃ fsm h,
    RegexFSM__init__ isalnum_ascii "a*4.+hi" [] = Return fsm h ∧
    ∀ k,
      check_string (enough_fuel h + k) fsm "aaaaaa4uhi" h = Return true h ∧
      check_string (enough_fuel h + k) fsm "4uhi" h = Return true h ∧
      check_string (enough_fuel h + k) fsm "meow" h = Return false h ∧
      check_string (enough_fuel h + k) fsm "4hi" h = Return false h.
Proof.
  destruct (RegexFSM__init__ isalnum_ascii "a*4.+hi" []) as [fsm h| |] eqn:Hc;
    [|by vm_compute in Hc..].
  exists fsm, h. split; [done|]. intros k. rewrite !check_string_fuel.
  vm_compute in Hc. injection Hc as <- <-.
  repeat split; by vm_compute.
Qed.

(** ** The compiled states form a graph of their own *)

Lemma dests_add_dest (h : Heap) (e : nat) (sym : symbol) (t s : nat) (k : symbol) :
  e < length h →
  dests (alter (add_dest sym t) e h) s k =
  dests h s k ++ (if bool_decide (k = sym ∧ s = e) then [t] else []).
Proof.
  intros He. unfold dests, trans. rewrite list_lookup_alter.
  destruct (decide (e = s)) as [->|Hne].
  - destruct (lookup_lt_is_Some_2 h s He) as [st Hst]. rewrite Hst. simpl.
    destruct (decide (k = sym)) as [->|Hk].
    + rewrite lookup_insert_eq. simpl. by rewrite bool_decide_eq_true_2.
    + rewrite lookup_insert_ne by done.
      rewrite bool_decide_eq_false_2 by (by intros [? _]). by rewrite app_nil_r.
  - rewrite bool_decide_eq_false_2 by (by intros [_ ?]). by rewrite app_nil_r.
Qed.

Lemma dests_set_final (h : Heap) (i : nat) (b : bool) (s : nat) (k : symbol) :
  dests (alter (with_is_final b) i h) s k = dests h s k.
Proof.
  unfold dests, trans. rewrite list_lookup_alter. case_decide; [subst|done].
  by destruct (h !! s).
Qed.

Lemma dests_fragment_states (c : ascii) (rep : option ascii) (m i : nat) (k : symbol) t :
  t ∈ dests (fragment_states c rep m) i k →
  m ≤ t < m + length (fragment_states c rep m).
Proof.
  assert (Hsingle : ∀ (k0 : symbol) (l : list nat),
            t ∈ default [] (({[k0 := l]} : gmap symbol (list nat)) !! k) → t ∈ l).
  { intros k0 l. rewrite lookup_singleton. case_decide; [done|]. by intros ?%elem_of_nil. }
  unfold fragment_states. repeat case_bool_decide; simpl length;
    repeat (destruct i as [|i]; [rewrite dests_cons_0|rewrite dests_cons_S]); simpl;
    rewrite ?lookup_empty; simpl;
    try (intros Ht%Hsingle; rewrite ?elem_of_cons, elem_of_nil in Ht; lia);
    try (by intros ?%elem_of_nil).
  all: unfold dests, trans; simpl; rewrite lookup_empty; simpl; by intros ?%elem_of_nil.
Qed.

Section Region.

Variable isalnum : ascii → bool.
Variable n : nat.

(** Every iteration of the loop that returns preserves what [add_atom]
    preserves. *)
Lemma build_loop_invariant (P : option (nat * nat) → Heap → Prop) :
  (∀ c rep base h base' h',
     P base h → add_atom c rep base h = Return base' h' → P base' h') →
  ∀ rest base h base' h',
    P base h → build_loop isalnum rest base h = Return base' h' → P base' h'.
Proof.
  intros Hstep rest. remember (length rest) as m eqn:Hm.
  revert rest Hm. induction m as [m IH] using lt_wf_ind. intros rest -> base h base' h' HP.
  destruct rest as [|c rest]; [by intros [= <- <-]|].
  assert (Hcont : ∀ rep rest', length rest' < length (c :: rest) →
            (add_atom c rep base ≫= build_loop isalnum rest') h = Return base' h' →
            P base' h').
  { intros rep rest' Hlt. rewrite bind_unfold.
    destruct (add_atom c rep base h) as [base1 h1| |] eqn:Hadd; [|done..].
    apply (IH _ Hlt rest' eq_refl). by eapply Hstep. }
  destruct (is_operator c) eqn:Hc; [by rewrite build_loop_operator|].
  destruct (is_atom isalnum c) eqn:Ha; [|by rewrite build_loop_unsupported].
  destruct rest as [|r rest2].
  { rewrite build_loop_single by done. apply Hcont. simpl. lia. }
  destruct (is_operator r) eqn:Hr.
  - rewrite build_loop_repeated by done. apply Hcont. simpl. lia.
  - rewrite build_loop_single by (simpl; by rewrite ?Hr). apply Hcont. simpl. lia.
Qed.

Lemma add_atom_closed_from c rep base h base' h' :
  n ≤ length h ∧ closed_from n h ∧ base_from n base h →
  add_atom c rep base h = Return base' h' →
  n ≤ length h' ∧ closed_from n h' ∧ base_from n base' h'.
Proof.
  intros (Hn & Hclosed & Hbase) Hadd.
  assert (Hok : base_ok base h).
  { destruct base as [[bs be]|]; [|done]. unfold base_from in Hbase. unfold base_ok. lia. }
  rewrite add_atom_eq in Hadd by done.
  injection Hadd as <- <-.
  pose proof (fragment_states_pos c rep (length h)) as Hpos.
  assert (Hstart : length h ≤ fragment_start rep (length h)
                   < length h + length (fragment_states c rep (length h))).
  { unfold fragment_start. rewrite fragment_states_length. repeat case_bool_decide; lia. }
  rewrite length_app, length_link_base. split; [lia|]. split.
  - intros s k t Hs Ht. rewrite length_app, length_link_base.
    destruct (decide (s < length h)) as [Hlt|Hge].
    + rewrite dests_app_l in Ht by (by rewrite length_link_base).
      destruct base as [[bs be]|]; cbn [base_from link_base] in *.
      * rewrite dests_add_dest in Ht by lia. apply elem_of_app in Ht as [Ht|Ht].
        { apply Hclosed in Ht; [lia|done]. }
        case_bool_decide; [|by apply elem_of_nil in Ht].
        apply list_elem_of_singleton in Ht as ->. lia.
      * apply Hclosed in Ht; [lia|done].
    + rewrite dests_app_r, length_link_base in Ht by (rewrite length_link_base; lia).
      apply dests_fragment_states in Ht. lia.
  - destruct base as [[bs be]|]; cbn [base_from extend_base link_base] in *;
      rewrite length_app, ?length_alter; lia.
Qed.

End Region.

Lemma closed_from_fresh (h0 : Heap) : closed_from (length h0) h0.
Proof. intros s k t Hs Ht. rewrite dests_dangling in Ht by done. by apply elem_of_nil in Ht. Qed.

Lemma RegexFSM__init__closed_from (isalnum : ascii → bool) (pattern : string)
    (h0 : Heap) (fsm : RegexFSM) (h : Heap) :
  RegexFSM__init__ isalnum pattern h0 = Return fsm h →
  length h0 ≤ start_state fsm < length h ∧ closed_from (length h0) h.
Proof.
  unfold RegexFSM__init__. rewrite bind_unfold.
  destruct (build_loop isalnum (list_ascii_of_string pattern) None h0)
    as [base h'| |] eqn:Hloop.
  - rewrite (_build_nfa_eq _ _ _ _ _ Hloop).
    apply (build_loop_invariant isalnum
             (λ base h, length h0 ≤ length h ∧ closed_from (length h0) h
                        ∧ base_from (length h0) base h)) in Hloop.
    + destruct Hloop as (Hlen & Hclosed & Hbase).
      destruct base as [[bs be]|]; intros [= <- <-]; simpl.
      * rewrite length_alter. split; [simpl in Hbase; lia|].
        intros s k t Hs Ht. rewrite dests_set_final in Ht. rewrite length_alter. eauto.
      * rewrite length_alter, length_snoc. split; [lia|].
        intros s k t Hs Ht. rewrite dests_set_final in Ht. rewrite length_alter, length_snoc.
        destruct (decide (s < length h')) as [Hlt|Hge].
        -- rewrite dests_app_l in Ht by done. apply Hclosed in Ht; [lia|done].
        -- rewrite dests_app_r in Ht by lia.
           destruct (s - length h') as [|j]; by apply elem_of_nil in Ht.
    + intros c rep base0 h1 base1 h2. apply add_atom_closed_from.
    + split; [done|]. split; [apply closed_from_fresh|done].
  - unfold _build_nfa. by rewrite bind_unfold, Hloop.
  - unfold _build_nfa. by rewrite bind_unfold, Hloop.
Qed.

(** ** The final state *)

Lemma lookup_flags_new (F : list bool) (k i : nat) :
  length F ≤ i →
  (default false ((F ++ replicate k false ++ [true]) !! i) = true ↔ i = length F + k).
Proof.
  intros Hi. rewrite lookup_app_r by done.
  destruct (decide (i - length F < k)) as [Hlt|Hge].
  - rewrite lookup_app_l by (by rewrite length_replicate).
    rewrite lookup_replicate_2 by done. simpl. split; [done|lia].
  - rewrite lookup_app_r by (rewrite length_replicate; lia).
    rewrite length_replicate.
    destruct (i - length F - k) as [|j] eqn:Hj; simpl.
    + split; [lia|done].
    + split; [done|lia].
Qed.

(** C9: after a successful compilation exactly one of the states it
    allocated is final: [base_end], the end of the last fragment the loop
    concatenated, which is the state allocated last, and the start state
    itself when the pattern is empty.  The states allocated are the
    automaton: the start state is one of them and their transitions lead
    to them only.  The flags of the states that existed before are
    untouched, and [check_string] and [epsilon_closure] change nothing in
    the arena, whatever their fuel. *)
Theorem exactly_one_final_state (isalnum : ascii → bool) (pattern : string)
    (h0 : Heap) (fsm : RegexFSM) (h : Heap) :
  RegexFSM__init__ isalnum pattern h0 = Return fsm h →
  ∃ fin,
    length h0 ≤ fin ∧ fin = length h - 1 ∧
    (∀ i, length h0 ≤ i → (final h i = true ↔ i = fin)) ∧
    (∀ i, i < length h0 → final h i = final h0 i) ∧
    length h0 ≤ start_state fsm < length h ∧
    closed_from (length h0) h ∧
    (pattern = EmptyString → fin = start_state fsm) ∧
    (pattern ≠ EmptyString →
       ∃ h1, build_loop isalnum (list_ascii_of_string pattern) None h0
             = Return (Some (start_state fsm, fin)) h1) ∧
    (∀ fuel input_str b h',
       check_string fuel fsm input_str h = Return b h' → h' = h) ∧
    (∀ fuel states C h',
       epsilon_closure fuel states h = Return C h' → h' = h).
Proof.
  intros Hinit.
  destruct (RegexFSM__init__closed_from isalnum pattern h0 fsm h Hinit) as [Hstart Hclosed].
  pose proof (RegexFSM__init__spec isalnum pattern h0) as Hspec.
  destruct (first_defect isalnum true (list_ascii_of_string pattern)).
  { rewrite Hspec in Hinit. discriminate. }
  destruct Hspec as (fsm' & h1 & k & Heq & Hlen & Hfl & Hempty & Hnonempty).
  rewrite Heq in Hinit. injection Hinit as -> <-.
  assert (Hlenh : length (alter (with_is_final true) (length h1 - 1) h1) = length h0 + S k).
  { by rewrite length_alter. }
  exists (length h0 + k). rewrite Hlenh in *.
  split; [lia|]. split; [lia|].
  split; [|split; [|split; [done|split; [done|split; [|split; [|split]]]]]].
  - intros i Hi. rewrite final_flags, Hfl.
    rewrite <- (length_fmap is_final h0). apply lookup_flags_new.
    by rewrite length_fmap.
  - intros i Hi. rewrite !final_flags, Hfl. fold (flags h0).
    rewrite lookup_app_l; [done|]. unfold flags. by rewrite length_fmap.
  - intros Hp. destruct (Hempty Hp) as [-> ->]. rewrite length_snoc in Hlen. lia.
  - intros Hp. exists h1. rewrite (Hnonempty Hp). do 3 f_equal. lia.
  - intros fuel input_str b h' Hrun. by apply read_only_check_string in Hrun.
  - intros fuel states C h' Hrun. by apply read_only_epsilon_closure in Hrun.
Qed.

Lemma exactly_one_final_state_witness :
  RegexFSM__init__ isalnum_ascii "a*" [] = Return (mkRegexFSM 2) (star_states "a" 0) ∧
  ∃ fin,
    length (@nil State) ≤ fin ∧ fin = length (star_states "a" 0) - 1 ∧
    (∀ i, length (@nil State) ≤ i → (final (star_states "a" 0) i = true ↔ i = fin)) ∧
    (∀ i, i < length (@nil State) → final (star_states "a" 0) i = final [] i) ∧
    length (@nil State) ≤ start_state (mkRegexFSM 2) < length (star_states "a" 0) ∧
    closed_from (length (@nil State)) (star_states "a" 0) ∧
    ("a*"%string = EmptyString → fin = start_state (mkRegexFSM 2)) ∧
    ("a*"%string ≠ EmptyString →
       ∃ h1, build_loop isalnum_ascii (list_ascii_of_string "a*") None []
             = Return (Some (start_state (mkRegexFSM 2), fin)) h1) ∧
    (∀ fuel input_str b h',
       check_string fuel (mkRegexFSM 2) input_str (star_states "a" 0) = Return b h' →
       h' = star_states "a" 0) ∧
    (∀ fuel states C h',
       epsilon_closure fuel states (star_states "a" 0) = Return C h' →
       h' = star_states "a" 0).
Proof.
  assert (H : RegexFSM__init__ isalnum_ascii "a*" []
              = Return (mkRegexFSM 2) (star_states "a" 0)) by (vm_compute; reflexivity).
  split; [exact H|].
  exact (exactly_one_final_state isalnum_ascii "a*" [] (mkRegexFSM 2) (star_states "a" 0) H).
Defined.

(** ** Repetition in the middle of a pattern *)

Section LoopInside.

Variable h : Heap.
Variables (A L E : nat) (c : ascii).
Hypothesis HA : h !! A = Some (atom_state c L).
Hypothesis HL : h !! L = Some (eps_state [A; E]).

(** From the end [L] of an atom fragment that loops back to its start [A]
    and leaves to [E]: any number of matching characters, then whatever
    [E] accepts. *)
Lemma accepts_loop_inside w :
  accepts h L w ↔
  ∃ w1 w2, w = w1 ++ w2 ∧ forallb (atom_matches c) w1 = true ∧ accepts h E w2.
Proof.
  split.
  - induction w as [|x w IH]; intros Hacc;
      apply (accepts_eps_state _ _ _ _ HL) in Hacc as (t & Ht & Hacc);
      (apply elem_of_cons in Ht as [->|Ht];
       [|apply list_elem_of_singleton in Ht as ->]).
    + apply (accepts_atom_start _ _ _ _ HA) in Hacc as (? & ? & ? & _). done.
    + by exists [], [].
    + apply (accepts_atom_start _ _ _ _ HA) in Hacc as (x' & w' & [= <- <-] & Hm & Hacc).
      destruct (IH Hacc) as (w1 & w2 & -> & Hall & Hacc2).
      exists (x :: w1), w2. split; [done|]. split; [|done]. simpl. by rewrite Hm, Hall.
    + by exists [], (x :: w).
  - intros (w1 & w2 & -> & Hall & Hacc). induction w1 as [|x w1 IH]; simpl.
    + apply (accepts_eps_state _ _ _ _ HL). exists E. split; [|done].
      rewrite !elem_of_cons. auto.
    + simpl in Hall. apply andb_true_iff in Hall as [Hm Hall].
      apply (accepts_eps_state _ _ _ _ HL). exists A. split; [rewrite elem_of_cons; auto|].
      apply (accepts_atom_start _ _ _ _ HA). exists x, (w1 ++ w2). auto.
Qed.

(** From the start [A] of a one-or-more fragment. *)
Lemma accepts_plus_inside w :
  accepts h A w ↔
  ∃ w1 w2, w = w1 ++ w2 ∧ (w1 ≠ [] ∧ forallb (atom_matches c) w1 = true) ∧ accepts h E w2.
Proof.
  rewrite (accepts_atom_start _ _ _ _ HA). split.
  - intros (x & w' & -> & Hm & (w1 & w2 & -> & Hall & Hacc)%accepts_loop_inside).
    exists (x :: w1), w2. split; [done|]. split; [|done]. split; [done|].
    simpl. by rewrite Hm, Hall.
  - intros (w1 & w2 & -> & [Hne Hall] & Hacc). destruct w1 as [|x w1]; [done|].
    simpl in Hall. apply andb_true_iff in Hall as [Hm Hall].
    exists x, (w1 ++ w2). split; [done|]. split; [done|].
    apply accepts_loop_inside. eauto.
Qed.

(** From the entry [S] of a zero-or-more fragment. *)
Lemma accepts_star_inside (S : nat) w :
  h !! S = Some (eps_state [A; E]) →
  accepts h S w ↔
  ∃ w1 w2, w = w1 ++ w2 ∧ forallb (atom_matches c) w1 = true ∧ accepts h E w2.
Proof.
  intros HS. rewrite <- accepts_loop_inside.
  by rewrite (accepts_eps_state _ _ _ _ HS), (accepts_eps_state _ _ _ _ HL).
Qed.

End LoopInside.

(** From the start [A] of a plain atom fragment with end [L]. *)
Lemma accepts_atom_inside (h : Heap) (A L : nat) (c : ascii) w :
  h !! A = Some (atom_state c L) →
  accepts h A w ↔
  ∃ w1 w2, w = w1 ++ w2 ∧ (∃ x, w1 = [x] ∧ atom_matches c x = true) ∧ accepts h L w2.
Proof.
  intros HA. rewrite (accepts_atom_start _ _ _ _ HA). split.
  - intros (x & w' & -> & Hm & Hacc). exists [x], w'. eauto.
  - intros (w1 & w2 & -> & (x & -> & Hm) & Hacc). exists x, w2. eauto.
Qed.

(** ** The automaton of an arbitrary pattern *)

Lemma fragment_states_split (c : ascii) (rep : option ascii) (m : nat) :
  fragment_states c rep m
  = removelast (fragment_states c rep m) ++ [State__init__ None].
Proof. unfold fragment_states. by repeat case_bool_decide. Qed.

Lemma length_fragment_front (c : ascii) (rep : option ascii) (m : nat) :
  S (length (removelast (fragment_states c rep m))) = length (fragment_states c rep m).
Proof.
  rewrite (fragment_states_split c rep m) at 2. rewrite length_app. simpl. lia.
Qed.

(** A fragment inside the arena: from its entry, one string of the token,
    then whatever its end state accepts.  The end state itself, at index
    [m + length - 1], belongs to what follows. *)
Lemma accepts_fragment (pre post : Heap) (c : ascii) (rep : option ascii) (w : list ascii) :
  accepts (pre ++ removelast (fragment_states c rep (length pre)) ++ post)
          (fragment_start rep (length pre)) w ↔
  ∃ w1 w2, w = w1 ++ w2 ∧ repeats c rep w1 ∧
           accepts (pre ++ removelast (fragment_states c rep (length pre)) ++ post)
                   (length pre + length (fragment_states c rep (length pre)) - 1) w2.
Proof.
  unfold repeats, fragment_start. rewrite fragment_states_length.
  unfold fragment_states.
  case_bool_decide as Hstar; [|case_bool_decide as Hplus]; simpl removelast.
  - replace (length pre + 4 - 1) with (length pre + 3) by lia.
    apply (accepts_star_inside _ (length pre) (length pre + 1) (length pre + 3) c).
    + by apply list_lookup_middle.
    + by rewrite lookup_app_plus.
    + by rewrite lookup_app_plus.
  - replace (length pre + 3 - 1) with (length pre + 2) by lia.
    apply (accepts_plus_inside _ (length pre) (length pre + 1) (length pre + 2) c).
    + by apply list_lookup_middle.
    + by rewrite lookup_app_plus.
  - replace (length pre + 2 - 1) with (length pre + 1) by lia.
    apply (accepts_atom_inside _ (length pre) (length pre + 1) c).
    by apply list_lookup_middle.
Qed.

(** Acceptance from the end state of a fragment that [toks] follow. *)
Lemma accepts_tokens (toks : list (ascii * option ascii)) : ∀ (h : Heap) (w : list ascii),
  accepts (h ++ tokens_states final_state toks (length h)) (length h) w
  ↔ in_language toks w.
Proof.
  induction toks as [|[c rep] toks IH]; intros h w.
  - simpl. apply accepts_final_state.
    rewrite <- (Nat.add_0_r (length h)). by rewrite lookup_app_plus.
  - cbn [tokens_states in_language].
    set (n := length h).
    set (front := removelast (fragment_states c rep (n + 1))).
    set (T := tokens_states final_state toks (n + length (fragment_states c rep (n + 1)))).
    set (H := h ++ eps_state [fragment_start rep (n + 1)] :: front ++ T).
    assert (H0 : H !! n = Some (eps_state [fragment_start rep (n + 1)])).
    { unfold H, n. rewrite <- (Nat.add_0_r (length h)) at 1. by rewrite lookup_app_plus. }
    pose proof (length_fragment_front c rep (n + 1)) as Hlen. fold front in Hlen.
    assert (Hfrag : ∀ w', accepts H (fragment_start rep (n + 1)) w' ↔
              ∃ w1 w2, w' = w1 ++ w2 ∧ repeats c rep w1 ∧
                       accepts H (n + length (fragment_states c rep (n + 1))) w2).
    { intros w'.
      pose proof (accepts_fragment (h ++ [eps_state [fragment_start rep (n + 1)]])
                    T c rep w') as Hf.
      rewrite length_app in Hf. cbn [length] in Hf. fold n front in Hf.
      rewrite <- app_assoc in Hf. cbn [app] in Hf. fold H in Hf.
      replace (n + 1 + length (fragment_states c rep (n + 1)) - 1)
        with (n + length (fragment_states c rep (n + 1))) in Hf by lia.
      exact Hf. }
    assert (Hrest : ∀ w2, accepts H (n + length (fragment_states c rep (n + 1))) w2
                          ↔ in_language toks w2).
    { intros w2.
      specialize (IH (h ++ eps_state [fragment_start rep (n + 1)] :: front) w2).
      rewrite length_app in IH. cbn [length] in IH. fold n in IH.
      replace (n + S (length front)) with (n + length (fragment_states c rep (n + 1)))
        in IH by lia.
      fold T in IH. rewrite <- app_assoc in IH. cbn [app] in IH. exact IH. }
    rewrite (accepts_eps_state _ _ _ _ H0). split.
    + intros (t & ->%list_elem_of_singleton & (w1 & w2 & -> & Hrep & Hacc)%Hfrag).
      exists w1, w2. split; [done|]. split; [done|]. by apply Hrest.
    + intros (w1 & w2 & -> & Hrep & Hlang).
      exists (fragment_start rep (n + 1)). split; [by apply list_elem_of_singleton|].
      apply Hfrag. exists w1, w2. split; [done|]. split; [done|]. by apply Hrest.
Qed.

(** Acceptance from the start state of a whole pattern. *)
Lemma accepts_pattern (toks : list (ascii * option ascii)) (h0 : Heap) (w : list ascii) :
  accepts (h0 ++ pattern_states final_state toks (length h0))
          (pattern_start toks (length h0)) w
  ↔ in_language toks w.
Proof.
  destruct toks as [|[c rep] toks].
  - apply (accepts_tokens [] h0 w).
  - cbn [pattern_states pattern_start in_language].
    rewrite (accepts_fragment h0 _ c rep w).
    set (n := length h0).
    set (front := removelast (fragment_states c rep n)).
    pose proof (length_fragment_front c rep n) as Hlen. fold front in Hlen.
    assert (Hrest : ∀ w2,
              accepts (h0 ++ front ++ tokens_states final_state toks
                                       (n + length (fragment_states c rep n) - 1))
                      (n + length (fragment_states c rep n) - 1) w2
              ↔ in_language toks w2).
    { intros w2. specialize (accepts_tokens toks (h0 ++ front) w2) as IH.
      rewrite length_app in IH. fold n in IH.
      replace (n + length front) with (n + length (fragment_states c rep n) - 1)
        in IH by lia.
      by rewrite <- app_assoc in IH. }
    split; intros (w1 & w2 & -> & Hrep & Hacc); exists w1, w2;
      (split; [done|]); (split; [done|]); by apply Hrest.
Qed.

Section TokensProofs.

Variable isalnum : ascii → bool.

Lemma first_defect_no_atom (p : list ascii) :
  head (is_operator <$> p) ≠ Some true →
  first_defect isalnum false p = first_defect isalnum true p.
Proof. destruct p as [|c p]; [done|]. simpl. by destruct (is_operator c). Qed.

(** One iteration of the loop on a pattern without defect: it compiles
    the first token and goes on with a pattern without defect. *)
Lemma build_loop_token (c : ascii) (rest1 : list ascii) :
  first_defect isalnum true (c :: rest1) = None →
  ∃ rep rest',
    (∀ base h, build_loop isalnum (c :: rest1) base h
               = (add_atom c rep base ≫= build_loop isalnum rest') h) ∧
    tokens (c :: rest1) = (c, rep) :: tokens rest' ∧
    first_defect isalnum true rest' = None ∧
    length rest' < length (c :: rest1).
Proof.
  cbn [first_defect]. destruct (is_operator c) eqn:Hc; [done|].
  fold (is_atom isalnum c). destruct (is_atom isalnum c) eqn:Ha; [|done].
  destruct rest1 as [|r rest2].
  - intros _. exists None, []. split; [|split; [done|split; [done|simpl; lia]]].
    intros. by apply build_loop_single.
  - cbn [first_defect tokens]. destruct (is_operator r) eqn:Hr.
    + intros Hd. exists (Some r), rest2. split; [|split; [done|split; [done|simpl; lia]]].
      intros. by apply build_loop_repeated.
    + intros Hd. exists None, (r :: rest2). split; [|split; [done|split; [|simpl; lia]]].
      * intros. apply build_loop_single; [done..|]. simpl. by rewrite Hr.
      * cbn [first_defect]. by rewrite Hr.
Qed.

Lemma tokens_states_snoc (toks : list (ascii * option ascii)) : ∀ n,
  ∃ front, ∀ last, tokens_states last toks n = front ++ [last].
Proof.
  induction toks as [|[c rep] toks IH]; intros n.
  - by exists [].
  - destruct (IH (n + length (fragment_states c rep (n + 1)))) as [front Hfront].
    eexists (_ :: _ ++ front). intros last. cbn [tokens_states].
    by rewrite Hfront, app_comm_cons, app_assoc.
Qed.

Lemma tokens_states_length (last1 last2 : State) toks n :
  length (tokens_states last1 toks n) = length (tokens_states last2 toks n).
Proof.
  destruct (tokens_states_snoc toks n) as [front Hfront].
  rewrite !Hfront, !length_app. done.
Qed.

Lemma alter_final_tokens (h : Heap) toks n :
  alter (with_is_final true)
        (length h + length (tokens_states (State__init__ None) toks n) - 1)
        (h ++ tokens_states (State__init__ None) toks n)
  = h ++ tokens_states final_state toks n.
Proof.
  destruct (tokens_states_snoc toks n) as [front Hfront].
  rewrite !Hfront, length_app. simpl.
  replace (length h + (length front + 1) - 1) with (length h + length front) by lia.
  apply alter_final_last.
Qed.

(** The loop over a pattern without defect, entered with [base_end] the
    state allocated last and still without transitions. *)
Lemma build_loop_tokens (m : nat) : ∀ (p : list ascii) (h : Heap) (base_start : nat),
  length p ≤ m →
  first_defect isalnum true p = None →
  build_loop isalnum p (Some (base_start, length h)) (h ++ [State__init__ None])
  = Return (Some (base_start,
                  length h
                  + length (tokens_states (State__init__ None) (tokens p) (length h)) - 1))
           (h ++ tokens_states (State__init__ None) (tokens p) (length h)).
Proof.
  induction m as [|m IH]; intros p h base_start Hlen Hp.
  { destruct p; [|simpl in Hlen; lia]. simpl. unfold ret. do 3 f_equal. lia. }
  destruct p as [|c rest1].
  { simpl. unfold ret. do 3 f_equal. lia. }
  destruct (build_loop_token c rest1 Hp) as (rep & rest' & Hstep & -> & Hrest & Hlt).
  rewrite Hstep, bind_unfold, add_atom_eq by (simpl; rewrite length_snoc; lia).
  cbn [link_base extend_base]. rewrite length_snoc, <- Nat.add_1_r.
  rewrite alter_snoc_last, add_dest_init.
  fold (eps_state [fragment_start rep (length h + 1)]).
  rewrite (fragment_states_split c rep (length h + 1)) at 2.
  pose proof (length_fragment_front c rep (length h + 1)) as Hfront.
  set (front := removelast (fragment_states c rep (length h + 1))) in *.
  set (len := length (fragment_states c rep (length h + 1))) in *.
  replace ((h ++ [eps_state [fragment_start rep (length h + 1)]]) ++ front
           ++ [State__init__ None])
    with ((h ++ eps_state [fragment_start rep (length h + 1)] :: front)
          ++ [State__init__ None])
    by (by rewrite <- !app_assoc).
  assert (Hlen' : length (h ++ eps_state [fragment_start rep (length h + 1)] :: front)
                  = length h + len).
  { rewrite length_app. simpl. lia. }
  replace (length h + 1 + len - 1)
    with (length (h ++ eps_state [fragment_start rep (length h + 1)] :: front)) by lia.
  rewrite IH by (done || simpl in *; lia).
  rewrite Hlen'. cbn [tokens_states]. fold front len.
  rewrite <- app_assoc. cbn [app length]. rewrite length_app.
  do 3 f_equal. lia.
Qed.

(** The arena and the start state that compiling a pattern without defect
    gives. *)
Lemma compile_pattern (pattern : string) (h0 : Heap) :
  first_defect isalnum true (list_ascii_of_string pattern) = None →
  RegexFSM__init__ isalnum pattern h0
  = Return (mkRegexFSM (pattern_start (tokens (list_ascii_of_string pattern)) (length h0)))
           (h0 ++ pattern_states final_state (tokens (list_ascii_of_string pattern))
                                 (length h0)).
Proof.
  intros Hp. unfold RegexFSM__init__. rewrite bind_unfold.
  destruct (list_ascii_of_string pattern) as [|c rest1] eqn:Hpat.
  - rewrite (_build_nfa_eq isalnum pattern h0 None h0) by (by rewrite Hpat).
    simpl. by rewrite alter_snoc_last.
  - destruct (build_loop_token c rest1 Hp) as (rep & rest' & Hstep & -> & Hrest & Hlt).
    cbn [pattern_states pattern_start].
    pose proof (length_fragment_front c rep (length h0)) as Hfront.
    set (front := removelast (fragment_states c rep (length h0))) in *.
    set (len := length (fragment_states c rep (length h0))) in *.
    assert (Hlen' : length (h0 ++ front) = length h0 + len - 1).
    { rewrite length_app. lia. }
    rewrite (_build_nfa_eq isalnum pattern h0
               (Some (fragment_start rep (length h0),
                      length (h0 ++ front)
                      + length (tokens_states (State__init__ None) (tokens rest')
                                              (length (h0 ++ front))) - 1))
               ((h0 ++ front) ++ tokens_states (State__init__ None) (tokens rest')
                                               (length (h0 ++ front)))).
    + rewrite alter_final_tokens, Hlen'. by rewrite <- app_assoc.
    + rewrite Hpat, Hstep, bind_unfold, add_atom_eq by done.
      cbn [link_base extend_base]. fold len.
      rewrite (fragment_states_split c rep (length h0)). fold front.
      rewrite app_assoc, <- Hlen'.
      by apply (build_loop_tokens (length rest')).
Qed.

End TokensProofs.

(** ** What a compiled automaton accepts *)

Lemma compiled_without_defect (isalnum : ascii → bool) (pattern : string)
    (h0 : Heap) (fsm : RegexFSM) (h : Heap) :
  RegexFSM__init__ isalnum pattern h0 = Return fsm h →
  first_defect isalnum true (list_ascii_of_string pattern) = None.
Proof.
  intros Hinit. pose proof (RegexFSM__init__spec isalnum pattern h0) as Hspec.
  destruct (first_defect isalnum true (list_ascii_of_string pattern)); [|done].
  rewrite Hspec in Hinit. discriminate.
Qed.

(** X1: whenever [RegexFSM(pattern)] succeeds, [check_string] returns [True]
    exactly on the strings of the pattern's language: the input splits
    into one piece per token, a single matching character for a plain
    atom, any number of them for an atom under ["*"], at least one for an
    atom under ["+"]. *)
Theorem check_string_language (isalnum : ascii → bool) (pattern : string)
    (h0 : Heap) (fsm : RegexFSM) (h : Heap) :
  RegexFSM__init__ isalnum pattern h0 = Return fsm h →
  ∀ input_str fuel, enough_fuel h ≤ fuel →
    ∃ b,
      check_string fuel fsm input_str h = Return b h ∧
      (b = true ↔ in_language (tokens (list_ascii_of_string pattern))
                              (list_ascii_of_string input_str)).
Proof.
  intros Hinit input_str fuel Hfuel.
  pose proof (compiled_without_defect _ _ _ _ _ Hinit) as Hp.
  rewrite (compile_pattern isalnum pattern h0 Hp) in Hinit. injection Hinit as <- <-.
  destruct (check_string_spec _ fuel
              (mkRegexFSM (pattern_start (tokens (list_ascii_of_string pattern))
                                         (length h0)))
              input_str Hfuel) as (b & Hb & Hacc).
  exists b. split; [done|]. rewrite Hacc. apply accepts_pattern.
Qed.

Lemma check_string_language_witness :
  RegexFSM__init__ isalnum_ascii "a*" [] = Return (mkRegexFSM 2) (star_states "a" 0) ∧
  ∀ input_str fuel, enough_fuel (star_states "a" 0) ≤ fuel →
    ∃ b,
      check_string fuel (mkRegexFSM 2) input_str (star_states "a" 0)
        = Return b (star_states "a" 0) ∧
      (b = true ↔ in_language (tokens (list_ascii_of_string "a*"))
                              (list_ascii_of_string input_str)).
Proof.
  assert (H : RegexFSM__init__ isalnum_ascii "a*" []
              = Return (mkRegexFSM 2) (star_states "a" 0)) by (vm_compute; reflexivity).
  split; [exact H|].
  exact (check_string_language isalnum_ascii "a*" [] (mkRegexFSM 2) (star_states "a" 0) H).
Defined.

(** ** The size of a compiled automaton *)

Lemma tokens_states_size (last : State) toks : ∀ n,
  length (tokens_states last toks n) = S (fragments_size toks).
Proof.
  induction toks as [|[c rep] toks IH]; intros n; [done|].
  cbn [tokens_states length fragments_size]. rewrite length_app, IH.
  pose proof (length_fragment_front c rep (n + 1)) as Hfront.
  rewrite fragment_states_length in Hfront. unfold token_size. cbn [snd].
  repeat case_bool_decide; lia.
Qed.

Lemma pattern_states_size (last : State) toks n :
  length (pattern_states last toks n) = states_count toks.
Proof.
  destruct toks as [|[c rep] toks]; [done|].
  cbn [pattern_states states_count fragments_size].
  rewrite length_app, tokens_states_size.
  pose proof (length_fragment_front c rep n) as Hfront.
  rewrite fragment_states_length in Hfront. unfold token_size. cbn [snd].
  repeat case_bool_decide; lia.
Qed.

Lemma tokens_cons_cons (c r : ascii) (rest2 : list ascii) :
  tokens (c :: r :: rest2)
  = if is_operator r then (c, Some r) :: tokens rest2
    else (c, None) :: tokens (r :: rest2).
Proof. reflexivity. Qed.

Lemma fragments_size_bound (m : nat) : ∀ p,
  length p ≤ m → fragments_size (tokens p) ≤ 2 * length p.
Proof.
  induction m as [|m IH]; intros p Hlen.
  { destruct p; [done|simpl in Hlen; lia]. }
  destruct p as [|c [|r rest2]]; [done|simpl; unfold token_size; simpl; lia|].
  rewrite tokens_cons_cons. cbn [length] in *. destruct (is_operator r) eqn:Hr.
  - cbn [fragments_size]. assert (Hr2 : length rest2 ≤ m) by lia.
    apply IH in Hr2. unfold token_size. cbn [snd].
    repeat case_bool_decide; lia.
  - cbn [fragments_size]. assert (Hr1 : length (r :: rest2) ≤ m) by (simpl; lia).
    apply IH in Hr1. cbn [length] in Hr1. unfold token_size at 1. cbn [snd].
    rewrite !bool_decide_eq_false_2 by done. lia.
Qed.

Lemma length_list_ascii_of_string (s : string) :
  length (list_ascii_of_string s) = String.length s.
Proof. induction s as [|c s IH]; simpl; [done|]. by rewrite IH. Qed.

Lemma compile_appends (isalnum : ascii → bool) (pattern : string)
    (h0 : Heap) (fsm : RegexFSM) (h : Heap) :
  RegexFSM__init__ isalnum pattern h0 = Return fsm h →
  ∃ new,
    h = h0 ++ new ∧
    length new = states_count (tokens (list_ascii_of_string pattern)) ∧
    1 ≤ length new ≤ 2 * String.length pattern + 1.
Proof.
  intros Hinit. pose proof (compiled_without_defect _ _ _ _ _ Hinit) as Hp.
  rewrite (compile_pattern isalnum pattern h0 Hp) in Hinit. injection Hinit as <- <-.
  eexists. split; [done|]. rewrite pattern_states_size. split; [done|].
  rewrite <- length_list_ascii_of_string.
  pose proof (fragments_size_bound _ (list_ascii_of_string pattern) (le_n _)) as Hb.
  destruct (list_ascii_of_string pattern) as [|c rest1] eqn:Hpat; [simpl; lia|].
  destruct (build_loop_token isalnum c rest1 Hp) as (rep & rest' & _ & Htok & _).
  rewrite Htok in *. cbn [states_count fragments_size] in *.
  unfold token_size in *. cbn [snd] in *. repeat case_bool_decide; lia.
Qed.

(** X4: a successful compilation keeps the states that were in the arena and
    allocates two states for a plain atom, three for an atom under ["+"],
    four for an atom under ["*"], and a single state for the empty
    pattern: at most two states per character of the pattern, plus one. *)
Theorem compiled_arena_size (isalnum : ascii → bool) (pattern : string)
    (h0 : Heap) (fsm : RegexFSM) (h : Heap) :
  RegexFSM__init__ isalnum pattern h0 = Return fsm h →
  ∃ new,
    h = h0 ++ new ∧
    length new = states_count (tokens (list_ascii_of_string pattern)) ∧
    1 ≤ length new ≤ 2 * String.length pattern + 1.
Proof. apply compile_appends. Qed.

Lemma compiled_arena_size_witness :
  RegexFSM__init__ isalnum_ascii "a*" [] = Return (mkRegexFSM 2) (star_states "a" 0) ∧
  ∃ new,
    star_states "a" 0 = [] ++ new ∧
    length new = states_count (tokens (list_ascii_of_string "a*")) ∧
    1 ≤ length new ≤ 2 * String.length "a*" + 1.
Proof.
  assert (H : RegexFSM__init__ isalnum_ascii "a*" []
              = Return (mkRegexFSM 2) (star_states "a" 0)) by (vm_compute; reflexivity).
  split; [exact H|].
  exact (compiled_arena_size isalnum_ascii "a*" [] (mkRegexFSM 2) (star_states "a" 0) H).
Defined.

(** ** Fuel in terms of the arena *)

Lemma all_targets_dests (h : Heap) (x : nat) :
  x ∈ all_targets h → ∃ s k, s < length h ∧ x ∈ dests h s k.
Proof.
  unfold all_targets. intros (X & HX & Hx)%elem_of_union_list.
  apply list_elem_of_fmap in HX as (st & -> & Hst).
  apply list_elem_of_lookup in Hst as [s Hs].
  unfold targets_of in Hx. apply elem_of_union_list in Hx as (Y & HY & Hx).
  apply list_elem_of_fmap in HY as ([k l] & -> & Hkl).
  apply elem_of_map_to_list in Hkl. apply elem_of_list_to_set in Hx. simpl in Hx.
  exists s, k. split; [by eapply lookup_lt_Some|].
  unfold dests, trans. rewrite Hs. simpl. by rewrite Hkl.
Qed.

Lemma enough_fuel_bound (h : Heap) : closed_from 0 h → enough_fuel h ≤ S (length h).
Proof.
  intros Hclosed. unfold enough_fuel. apply le_n_S.
  rewrite <- (size_set_seq (C:=gset nat) 0 (length h)). apply subseteq_size.
  intros x (s & k & _ & Hx)%all_targets_dests. apply elem_of_set_seq.
  apply Hclosed in Hx; lia.
Qed.

Lemma closed_from_app (h0 new : Heap) :
  closed_from 0 h0 → closed_from (length h0) (h0 ++ new) → closed_from 0 (h0 ++ new).
Proof.
  intros H0 Hnew s k t _ Ht. destruct (decide (s < length h0)) as [Hs|Hs].
  - rewrite dests_app_l in Ht by done. apply H0 in Ht; [|lia].
    rewrite length_app. lia.
  - apply Hnew in Ht; lia.
Qed.

(** X5: in an arena without dangling references (the empty arena, or one
    that only ever held compiled automata) every compiled automaton
    answers within one more iteration of the closure loop than the arena
    has states; in a fresh arena that is at most two iterations per
    character of the pattern, plus two. *)
Theorem check_string_fuel_bound (isalnum : ascii → bool) (pattern : string)
    (h0 : Heap) (fsm : RegexFSM) (h : Heap) :
  closed_from 0 h0 →
  RegexFSM__init__ isalnum pattern h0 = Return fsm h →
  closed_from 0 h ∧
  length h ≤ length h0 + 2 * String.length pattern + 1 ∧
  ∀ input_str fuel, S (length h) ≤ fuel →
    ∃ b, check_string fuel fsm input_str h = Return b h.
Proof.
  intros H0 Hinit.
  destruct (compile_appends _ _ _ _ _ Hinit) as (new & -> & _ & _ & Hsize).
  destruct (RegexFSM__init__closed_from _ _ _ _ _ Hinit) as [_ Hnew].
  pose proof (closed_from_app _ _ H0 Hnew) as Hclosed.
  split; [done|]. split; [rewrite length_app; lia|].
  intros input_str fuel Hfuel.
  destruct (check_string_spec (h0 ++ new) fuel fsm input_str) as (b & Hb & _); [|eauto].
  etrans; [by apply enough_fuel_bound|done].
Qed.

Lemma check_string_fuel_bound_witness :
  closed_from 0 [] ∧
  RegexFSM__init__ isalnum_ascii "a*" [] = Return (mkRegexFSM 2) (star_states "a" 0) ∧
  closed_from 0 (star_states "a" 0) ∧
  length (star_states "a" 0) ≤ length (@nil State) + 2 * String.length "a*" + 1 ∧
  ∀ input_str fuel, S (length (star_states "a" 0)) ≤ fuel →
    ∃ b, check_string fuel (mkRegexFSM 2) input_str (star_states "a" 0)
         = Return b (star_states "a" 0).
Proof.
  assert (H0 : closed_from 0 []) by exact (closed_from_fresh []).
  assert (H : RegexFSM__init__ isalnum_ascii "a*" []
              = Return (mkRegexFSM 2) (star_states "a" 0)) by (vm_compute; reflexivity).
  split; [exact H0|]. split; [exact H|].
  exact (check_string_fuel_bound isalnum_ascii "a*" [] (mkRegexFSM 2)
           (star_states "a" 0) H0 H).
Defined.

(** ** Automata that share the arena *)

Section Extension.

Variables (h0 new : Heap) (m : nat).
Hypothesis Hclosed : closed_from m h0.

Lemma eps_edge_extend s t : s < length h0 → eps_edge (h0 ++ new) s t ↔ eps_edge h0 s t.
Proof. intros Hs. unfold eps_edge. by rewrite dests_app_l. Qed.

Lemma sym_edge_extend c s t :
  s < length h0 → sym_edge (h0 ++ new) c s t ↔ sym_edge h0 c s t.
Proof. intros Hs. unfold sym_edge. by rewrite !dests_app_l. Qed.

Lemma eps_edge_in_range s t : m ≤ s → eps_edge h0 s t → m ≤ t < length h0.
Proof. intros Hs Ht. by eapply Hclosed. Qed.

Lemma sym_edge_in_range c s t : m ≤ s → sym_edge h0 c s t → m ≤ t < length h0.
Proof. intros Hs [Ht|Ht]; by eapply Hclosed. Qed.

Lemma run_in_range w s f : run h0 w s f → m ≤ s < length h0 → m ≤ f < length h0.
Proof.
  induction 1 as [|w s t f Hst _ IH|c w s t f Hst _ IH]; [done|..]; intros Hs; apply IH.
  - eapply eps_edge_in_range; [|done]. lia.
  - eapply sym_edge_in_range; [|done]. lia.
Qed.

(** Runs that start in the closed part do not see what was appended. *)
Lemma run_extend w s f : m ≤ s < length h0 → run (h0 ++ new) w s f ↔ run h0 w s f.
Proof.
  intros Hs. split.
  - intros Hrun. induction Hrun as [|w s t f Hst _ IH|c w s t f Hst _ IH]; [constructor|..].
    + apply eps_edge_extend in Hst; [|lia]. eapply run_eps; [done|].
      apply IH. eapply eps_edge_in_range; [|done]. lia.
    + apply sym_edge_extend in Hst; [|lia]. eapply run_sym; [done|].
      apply IH. eapply sym_edge_in_range; [|done]. lia.
  - intros Hrun. induction Hrun as [|w s t f Hst _ IH|c w s t f Hst _ IH]; [constructor|..].
    + eapply run_eps; [apply eps_edge_extend; [lia|done]|].
      apply IH. eapply eps_edge_in_range; [|done]. lia.
    + eapply run_sym; [apply sym_edge_extend; [lia|done]|].
      apply IH. eapply sym_edge_in_range; [|done]. lia.
Qed.

Lemma accepts_extend w s : m ≤ s < length h0 → accepts (h0 ++ new) s w ↔ accepts h0 s w.
Proof.
  intros Hs. unfold accepts. split; intros (f & Hrun & Hfin).
  - apply run_extend in Hrun; [|done]. exists f. split; [done|].
    pose proof (run_in_range _ _ _ Hrun Hs) as Hf.
    unfold final in *. by rewrite lookup_app_l in Hfin by lia.
  - exists f. split; [by apply run_extend|].
    pose proof (run_in_range _ _ _ Hrun Hs) as Hf.
    unfold final in *. by rewrite lookup_app_l by lia.
Qed.

End Extension.

(** X6: compiling a second pattern only appends to the arena, and the
    automaton compiled first answers every input as before. *)
Theorem earlier_automaton_unaffected (isalnum : ascii → bool) (pattern1 pattern2 : string)
    (h00 h0 h : Heap) (fsm1 fsm2 : RegexFSM) :
  RegexFSM__init__ isalnum pattern1 h00 = Return fsm1 h0 →
  RegexFSM__init__ isalnum pattern2 h0 = Return fsm2 h →
  (∃ new, h = h0 ++ new) ∧
  ∀ input_str fuel0 fuel, enough_fuel h0 ≤ fuel0 → enough_fuel h ≤ fuel →
    ∃ b,
      check_string fuel0 fsm1 input_str h0 = Return b h0 ∧
      check_string fuel fsm1 input_str h = Return b h.
Proof.
  intros Hinit1 Hinit2.
  destruct (compile_appends _ _ _ _ _ Hinit2) as (new & -> & _).
  destruct (RegexFSM__init__closed_from _ _ _ _ _ Hinit1) as [Hstart Hclosed].
  split; [by exists new|]. intros input_str fuel0 fuel Hfuel0 Hfuel.
  destruct (check_string_spec h0 fuel0 fsm1 input_str Hfuel0) as (b & Hb & Hacc).
  exists b. split; [done|].
  apply check_string_decides; [done|].
  by rewrite (accepts_extend h0 new (length h00) Hclosed), Hacc.
Qed.

Lemma earlier_automaton_unaffected_witness :
  RegexFSM__init__ isalnum_ascii "a*" [] = Return (mkRegexFSM 2) (star_states "a" 0) ∧
  RegexFSM__init__ isalnum_ascii "b+" (star_states "a" 0)
    = Return (mkRegexFSM 4) (star_states "a" 0 ++ plus_states "b" 4) ∧
  (∃ new, star_states "a" 0 ++ plus_states "b" 4 = star_states "a" 0 ++ new) ∧
  ∀ input_str fuel0 fuel,
    enough_fuel (star_states "a" 0) ≤ fuel0 →
    enough_fuel (star_states "a" 0 ++ plus_states "b" 4) ≤ fuel →
    ∃ b,
      check_string fuel0 (mkRegexFSM 2) input_str (star_states "a" 0)
        = Return b (star_states "a" 0) ∧
      check_string fuel (mkRegexFSM 2) input_str (star_states "a" 0 ++ plus_states "b" 4)
        = Return b (star_states "a" 0 ++ plus_states "b" 4).
Proof.
  assert (H1 : RegexFSM__init__ isalnum_ascii "a*" []
               = Return (mkRegexFSM 2) (star_states "a" 0)) by (vm_compute; reflexivity).
  assert (H2 : RegexFSM__init__ isalnum_ascii "b+" (star_states "a" 0)
               = Return (mkRegexFSM 4) (star_states "a" 0 ++ plus_states "b" 4))
    by (vm_compute; reflexivity).
  split; [exact H1|]. split; [exact H2|].
  exact (earlier_automaton_unaffected isalnum_ascii "a*" "b+" [] (star_states "a" 0)
           (star_states "a" 0 ++ plus_states "b" 4) (mkRegexFSM 2) (mkRegexFSM 4) H1 H2).
Defined.

(** ** Transitions added by hand *)

(** X9: [add_transition] on a live state puts the destination at the end of
    the list under the given key, keeping what the list held (a
    destination that is already there is added again); it changes no
    other list, no flag, and allocates nothing. *)
Theorem add_transition_appends (self : nat) (sym : symbol) (state : nat) (h : Heap) :
  self < length h →
  ∃ h',
    add_transition self sym state h = Return tt h' ∧
    length h' = length h ∧
    dests h' self sym = dests h self sym ++ [state] ∧
    (∀ s k, (s, k) ≠ (self, sym) → dests h' s k = dests h s k) ∧
    (∀ s, final h' s = final h s).
Proof.
  intros Hself. eexists. split; [apply add_transition_eq|].
  split; [apply length_alter|]. split; [|split].
  - rewrite dests_add_dest by done. by rewrite bool_decide_eq_true_2.
  - intros s k Hne. rewrite dests_add_dest by done.
    rewrite bool_decide_eq_false_2; [by rewrite app_nil_r|].
    intros [-> ->]. done.
  - intros s. rewrite !final_flags. by rewrite flags_alter_add_dest.
Qed.

Lemma add_transition_appends_witness :
  1 < length (star_states "a" 0) ∧
  ∃ h',
    add_transition 1 None 3 (star_states "a" 0) = Return tt h' ∧
    length h' = length (star_states "a" 0) ∧
    dests h' 1 None = dests (star_states "a" 0) 1 None ++ [3] ∧
    (∀ s k, (s, k) ≠ (1, None) → dests h' s k = dests (star_states "a" 0) s k) ∧
    (∀ s, final h' s = final (star_states "a" 0) s).
Proof.
  assert (H : 1 < length (star_states "a" 0)) by (simpl; lia).
  split; [exact H|]. exact (add_transition_appends 1 None 3 (star_states "a" 0) H).
Defined.

(** ** The simulation on any graph *)

(** X8: on every arena, built by the compiler or by hand with
    [add_transition], [check_string] returns [True] exactly when some
    path leads from the start state to a final state and the characters
    it consumes, each under its own key or under the wildcard key, spell
    the input. *)
Theorem check_string_simulates (h : Heap) (fsm : RegexFSM) (input_str : string)
    (fuel : nat) :
  enough_fuel h ≤ fuel →
  ∃ b,
    check_string fuel fsm input_str h = Return b h ∧
    (b = true ↔
     ∃ f, run h (list_ascii_of_string input_str) (start_state fsm) f ∧ final h f = true).
Proof. apply check_string_spec. Qed.

Lemma check_string_simulates_witness :
  enough_fuel cyclic_heap ≤ 3 ∧
  ∃ b,
    check_string 3 (mkRegexFSM 0) "x" cyclic_heap = Return b cyclic_heap ∧
    (b = true ↔
     ∃ f, run cyclic_heap (list_ascii_of_string "x") (start_state (mkRegexFSM 0)) f
          ∧ final cyclic_heap f = true).
Proof.
  assert (H : enough_fuel cyclic_heap ≤ 3) by (vm_compute; lia).
  split; [exact H|]. exact (check_string_simulates cyclic_heap (mkRegexFSM 0) "x" 3 H).
Defined.

(** ** The closure of a union *)

(** X10: the closure of a union is the union of the closures; in particular
    the closure grows with the set. *)
Theorem epsilon_closure_union (h : Heap) (S T : gset nat) (fuel : nat) :
  size ((S ∪ T) ∪ all_targets h) ≤ fuel →
  ∃ CS CT,
    epsilon_closure fuel S h = Return CS h ∧
    epsilon_closure fuel T h = Return CT h ∧
    epsilon_closure fuel (S ∪ T) h = Return (CS ∪ CT) h.
Proof.
  intros Hfuel.
  destruct (epsilon_closure_spec h fuel S) as (CS & HS & HclS).
  { etrans; [|exact Hfuel]. apply subseteq_size. set_solver. }
  destruct (epsilon_closure_spec h fuel T) as (CT & HT & HclT).
  { etrans; [|exact Hfuel]. apply subseteq_size. set_solver. }
  destruct (epsilon_closure_spec h fuel (S ∪ T) Hfuel) as (C & HC & Hcl).
  exists CS, CT. split; [done|]. split; [done|]. rewrite HC. f_equal.
  apply set_eq. intros x. rewrite elem_of_union, (Hcl x), (HclS x), (HclT x).
  split.
  - intros (s & [Hs|Hs]%elem_of_union & Hsx); eauto.
  - intros [(s & Hs & Hsx)|(s & Hs & Hsx)]; exists s; (split; [set_solver|done]).
Qed.

Lemma epsilon_closure_union_witness :
  size ((({[0]} : gset nat) ∪ {[1]}) ∪ all_targets cyclic_heap) ≤ 2 ∧
  ∃ CS CT,
    epsilon_closure 2 {[0]} cyclic_heap = Return CS cyclic_heap ∧
    epsilon_closure 2 {[1]} cyclic_heap = Return CT cyclic_heap ∧
    epsilon_closure 2 ({[0]} ∪ {[1]}) cyclic_heap = Return (CS ∪ CT) cyclic_heap.
Proof.
  assert (H : size ((({[0]} : gset nat) ∪ {[1]}) ∪ all_targets cyclic_heap) ≤ 2)
    by (vm_compute; lia).
  split; [exact H|]. exact (epsilon_closure_union cyclic_heap {[0]} {[1]} 2 H).
Defined.

(** ** The iteration order of sets does not matter *)

Section AnyOrder.

Variable h : Heap.
Variable enum : gset nat → list nat.
Hypothesis Henum : enumerates enum.

Lemma elem_of_enum (X : gset nat) (x : nat) : x ∈ enum X ↔ x ∈ X.
Proof. by rewrite (Henum X), elem_of_elements. Qed.

Lemma epsilon_closure_with_eq (fuel : nat) (states : gset nat) :
  size (states ∪ all_targets h) ≤ fuel →
  epsilon_closure_with enum fuel states h = epsilon_closure fuel states h.
Proof.
  intros Hfuel. destruct (epsilon_closure_spec h fuel states Hfuel) as (C & -> & Hcl).
  unfold epsilon_closure_with.
  destruct (closure_loop_spec h fuel (enum states) states)
    as (C' & -> & Hsub & Hreach & Hsucc).
  - intros x. apply elem_of_enum.
  - rewrite (Henum states). change (length (elements states)) with (size states).
    assert (Hdisj : states ## all_targets h ∖ states) by set_solver.
    rewrite <- (size_union _ _ Hdisj).
    etrans; [|exact Hfuel]. apply subseteq_size. set_solver.
  - f_equal. apply (is_closure_unique h states); [|done].
    intros x. split; [by apply Hreach|].
    intros (s & Hs & Hsx). apply Hsub in Hs.
    induction Hsx as [s|s t x Hst _ IH]; [done|].
    apply IH. destruct (Hsucc s t Hs Hst) as [?|[Hin Hn]]; [done|].
    exfalso. apply Hn. by apply elem_of_enum.
Qed.

Lemma for_each_collect_enum (c : ascii) (cur : gset nat) :
  for_each (enum cur) (collect c) ∅ h = for_each (elements cur) (collect c) ∅ h.
Proof.
  destruct (for_each_collect_spec h c (enum cur) ∅) as (N & -> & HN).
  destruct (for_each_collect_spec h c (elements cur) ∅) as (N' & -> & HN').
  f_equal. apply set_eq. intros x. rewrite HN, HN'.
  by setoid_rewrite elem_of_enum; setoid_rewrite elem_of_elements.
Qed.

Lemma step_with_eq (fuel : nat) (cur : gset nat) (c : ascii) :
  enough_fuel h ≤ fuel → step_with enum fuel cur c h = step fuel cur c h.
Proof.
  intros Hfuel. unfold step_with, step. rewrite !bind_unfold, for_each_collect_enum.
  destruct (for_each_collect_spec h c (elements cur) ∅) as (N & -> & HN).
  apply epsilon_closure_with_eq. etrans; [|exact Hfuel]. apply size_targets_le.
  intros x [Hx|(s & _ & [Hs|Hs])]%HN.
  - by apply not_elem_of_empty in Hx.
  - by eapply dests_all_targets.
  - by eapply dests_all_targets.
Qed.

Lemma for_each_step_with_eq (fuel : nat) (w : list ascii) : ∀ cur,
  enough_fuel h ≤ fuel →
  for_each w (step_with enum fuel) cur h = for_each w (step fuel) cur h.
Proof.
  induction w as [|c w IH]; intros cur Hfuel; [done|].
  simpl. rewrite !bind_unfold, step_with_eq by done.
  destruct (step_spec h fuel cur c Hfuel) as (C & -> & _). by apply IH.
Qed.

Lemma any_is_final_enum (X : gset nat) :
  any_is_final (enum X) h = any_is_final (elements X) h.
Proof.
  destruct (any_is_final_spec h (enum X)) as (b & -> & Hb).
  destruct (any_is_final_spec h (elements X)) as (b' & -> & Hb').
  f_equal. setoid_rewrite elem_of_enum in Hb. setoid_rewrite elem_of_elements in Hb'.
  rewrite <- Hb' in Hb. clear -Hb. destruct b, b'; intuition congruence.
Qed.

(** X7: whatever the order in which sets of states are listed and iterated,
    [check_string] returns the same boolean. *)
Theorem check_string_any_order (fuel : nat) (fsm : RegexFSM) (input_str : string) :
  enough_fuel h ≤ fuel →
  check_string_with enum fuel fsm input_str h = check_string fuel fsm input_str h.
Proof.
  intros Hfuel. unfold check_string_with, check_string.
  rewrite bind_unfold, (bind_unfold (epsilon_closure _ _)).
  rewrite epsilon_closure_with_eq by (etrans; [apply size_start_le|done]).
  destruct (epsilon_closure_spec h fuel {[start_state fsm]}) as (C0 & -> & _).
  { etrans; [apply size_start_le|done]. }
  rewrite bind_unfold, (bind_unfold (for_each _ (step fuel) _)).
  rewrite for_each_step_with_eq by done.
  destruct (for_each (list_ascii_of_string input_str) (step fuel) C0 h) as [C h'| |] eqn:Hrun;
    [|done..].
  assert (h' = h) as ->.
  { eapply (read_only_for_each _ (step fuel)); [|exact Hrun]. intros. apply read_only_step. }
  apply any_is_final_enum.
Qed.

End AnyOrder.

Lemma reverse_elements_enumerates : enumerates reverse_elements.
Proof. intros X. unfold reverse_elements. apply reverse_Permutation. Qed.

Lemma check_string_any_order_witness :
  enumerates reverse_elements ∧ enough_fuel (star_states "a" 0) ≤ 4 ∧
  check_string_with reverse_elements 4 (mkRegexFSM 2) "aa" (star_states "a" 0)
  = check_string 4 (mkRegexFSM 2) "aa" (star_states "a" 0).
Proof.
  assert (H : enough_fuel (star_states "a" 0) ≤ 4) by (vm_compute; lia).
  split; [exact reverse_elements_enumerates|]. split; [exact H|].
  exact (check_string_any_order (star_states "a" 0) reverse_elements
           reverse_elements_enumerates 4 (mkRegexFSM 2) "aa" H).
Defined.

(** ** An empty working set *)

Lemma for_each_app {A S} (l1 l2 : list A) (body : S → A → M S) (acc : S) (h : Heap) :
  for_each (l1 ++ l2) body acc h = (for_each l1 body acc ≫= for_each l2 body) h.
Proof.
  revert acc h. induction l1 as [|x l1 IH]; intros acc h; [done|].
  simpl. rewrite !bind_unfold. destruct (body acc x h) as [acc' h'| |]; [|done..].
  rewrite IH. by rewrite bind_unfold.
Qed.

Lemma epsilon_closure_empty (fuel : nat) (h : Heap) :
  epsilon_closure fuel ∅ h = Return ∅ h.
Proof. unfold epsilon_closure. rewrite elements_empty. by destruct fuel. Qed.

Lemma step_empty (fuel : nat) (c : ascii) (h : Heap) : step fuel ∅ c h = Return ∅ h.
Proof.
  unfold step. rewrite elements_empty. simpl. rewrite bind_unfold. unfold ret.
  apply epsilon_closure_empty.
Qed.

Lemma for_each_step_empty (fuel : nat) (w : list ascii) (h : Heap) :
  for_each w (step fuel) ∅ h = Return ∅ h.
Proof.
  induction w as [|c w IH]; [done|]. simpl. by rewrite bind_unfold, step_empty.
Qed.

Lemma list_ascii_of_string_app (s1 s2 : string) :
  list_ascii_of_string (String.append s1 s2)
  = list_ascii_of_string s1 ++ list_ascii_of_string s2.
Proof. induction s1 as [|c s1 IH]; simpl; [done|]. by rewrite IH. Qed.

(** X11: once the characters read have left no state active, the answer is
    [False] whatever follows, and it needs no further fuel. *)
Theorem no_active_state_rejects (fuel : nat) (fsm : RegexFSM) (u v : string)
    (h : Heap) (C0 : gset nat) :
  epsilon_closure fuel {[start_state fsm]} h = Return C0 h →
  for_each (list_ascii_of_string u) (step fuel) C0 h = Return ∅ h →
  check_string fuel fsm (String.append u v) h = Return false h.
Proof.
  intros H0 Hu. unfold check_string.
  rewrite (bind_Return _ _ _ _ _ H0), list_ascii_of_string_app.
  rewrite bind_unfold, for_each_app, (bind_Return _ _ _ _ _ Hu), for_each_step_empty.
  by rewrite elements_empty.
Qed.

Lemma no_active_state_rejects_witness :
  epsilon_closure 4 {[start_state (mkRegexFSM 2)]} (star_states "a" 0)
    = Return ({[0]} ∪ {[2]} ∪ {[3]}) (star_states "a" 0) ∧
  for_each (list_ascii_of_string "ab") (step 4) ({[0]} ∪ {[2]} ∪ {[3]}) (star_states "a" 0)
    = Return ∅ (star_states "a" 0) ∧
  check_string 4 (mkRegexFSM 2) (String.append "ab" "aaa") (star_states "a" 0)
    = Return false (star_states "a" 0).
Proof.
  assert (H0 : epsilon_closure 4 {[start_state (mkRegexFSM 2)]} (star_states "a" 0)
               = Return ({[0]} ∪ {[2]} ∪ {[3]}) (star_states "a" 0))
    by (vm_compute; reflexivity).
  assert (Hu : for_each (list_ascii_of_string "ab") (step 4) ({[0]} ∪ {[2]} ∪ {[3]})
                 (star_states "a" 0) = Return ∅ (star_states "a" 0))
    by (vm_compute; reflexivity).
  split; [exact H0|]. split; [exact Hu|].
  exact (no_active_state_rejects 4 (mkRegexFSM 2) "ab" "aaa" (star_states "a" 0)
           ({[0]} ∪ {[2]} ∪ {[3]}) H0 Hu).
Defined.

(** ** Concatenation of patterns *)

Lemma in_language_app (t1 t2 : list (ascii * option ascii)) : ∀ w,
  in_language (t1 ++ t2) w ↔
  ∃ u v, w = u ++ v ∧ in_language t1 u ∧ in_language t2 v.
Proof.
  induction t1 as [|[c rep] t1 IH]; intros w; simpl.
  - split; [intros ?; by exists [], w|]. by intros (u & v & -> & -> & ?).
  - split.
    + intros (w1 & w2 & -> & Hrep & (u & v & -> & Hu & Hv)%IH).
      exists (w1 ++ u), v. rewrite app_assoc. split; [done|]. split; [|done].
      by exists w1, u.
    + intros (u & v & -> & (w1 & w2 & -> & Hrep & Hu) & Hv).
      exists w1, (w2 ++ v). rewrite app_assoc. split; [done|]. split; [done|].
      apply IH. by exists w2, v.
Qed.

Section Concatenation.

Variable isalnum : ascii → bool.

Lemma first_defect_head (p : list ascii) :
  first_defect isalnum true p = None → head (is_operator <$> p) ≠ Some true.
Proof. destruct p as [|c p]; [done|]. simpl. by destruct (is_operator c). Qed.

Lemma tokens_app (m : nat) : ∀ p1 p2,
  length p1 ≤ m →
  first_defect isalnum true p1 = None →
  first_defect isalnum true p2 = None →
  tokens (p1 ++ p2) = tokens p1 ++ tokens p2 ∧
  first_defect isalnum true (p1 ++ p2) = None.
Proof.
  induction m as [|m IH]; intros p1 p2 Hlen Hp1 Hp2.
  { destruct p1; [done|simpl in Hlen; lia]. }
  destruct p1 as [|c rest1]; [done|].
  pose proof (first_defect_head p2 Hp2) as Hhead.
  cbn [first_defect] in Hp1. destruct (is_operator c) eqn:Hc; [done|].
  destruct (isalnum c || bool_decide (c = ".")) eqn:Ha; [|done].
  destruct rest1 as [|r rest2].
  - simpl app. split.
    + destruct p2 as [|r p2]; [done|]. rewrite tokens_cons_cons.
      simpl in Hhead. by destruct (is_operator r).
    + cbn [first_defect]. rewrite Hc, Ha. by rewrite first_defect_no_atom.
  - cbn [first_defect] in Hp1. cbn [length] in Hlen.
    change ((c :: r :: rest2) ++ p2) with (c :: r :: (rest2 ++ p2)).
    rewrite !tokens_cons_cons. cbn [first_defect]. rewrite Hc, Ha.
    destruct (is_operator r) eqn:Hr.
    + destruct (IH rest2 p2) as [-> ->]; [lia|done..].
    + assert (Hp1' : first_defect isalnum true (r :: rest2) = None).
      { cbn [first_defect]. by rewrite Hr. }
      destruct (IH (r :: rest2) p2) as [Htok Hdef]; [simpl; lia|done..|].
      change (r :: rest2 ++ p2) with ((r :: rest2) ++ p2). rewrite Htok. split; [done|].
      rewrite <- Hdef. simpl. by rewrite Hr.
Qed.

Lemma check_string_true (pattern : string) (h0 : Heap) (fsm : RegexFSM) (h : Heap)
    (input_str : string) (fuel : nat) :
  RegexFSM__init__ isalnum pattern h0 = Return fsm h →
  enough_fuel h ≤ fuel →
  check_string fuel fsm input_str h = Return true h ↔
  in_language (tokens (list_ascii_of_string pattern)) (list_ascii_of_string input_str).
Proof.
  intros Hinit Hfuel.
  pose proof (compiled_without_defect _ _ _ _ _ Hinit) as Hp.
  rewrite (compile_pattern isalnum pattern h0 Hp) in Hinit. injection Hinit as <- <-.
  destruct (check_string_spec _ fuel
              (mkRegexFSM (pattern_start (tokens (list_ascii_of_string pattern))
                                         (length h0)))
              input_str Hfuel) as (b & -> & Hacc).
  rewrite <- accepts_pattern, <- Hacc. split; [by intros [= ->]|by intros ->].
Qed.

Lemma string_of_list_ascii_app (l1 l2 : list ascii) :
  string_of_list_ascii (l1 ++ l2)
  = String.append (string_of_list_ascii l1) (string_of_list_ascii l2).
Proof. induction l1 as [|c l1 IH]; simpl; [done|]. by rewrite IH. Qed.

(** X2: writing two patterns one after the other concatenates what they
    accept: if both compile, so does the pattern made of the first
    followed by the second, and it accepts exactly the strings that split
    into a string the first accepts followed by a string the second
    accepts. *)
Theorem concatenated_patterns (pattern1 pattern2 : string) (h1 h2 h3 : Heap)
    (fsm1 fsm2 : RegexFSM) (g1 g2 : Heap) :
  RegexFSM__init__ isalnum pattern1 h1 = Return fsm1 g1 →
  RegexFSM__init__ isalnum pattern2 h2 = Return fsm2 g2 →
  ∃ fsm3 g3,
    RegexFSM__init__ isalnum (String.append pattern1 pattern2) h3 = Return fsm3 g3 ∧
    ∀ input_str fuel1 fuel2 fuel3,
      enough_fuel g1 ≤ fuel1 → enough_fuel g2 ≤ fuel2 → enough_fuel g3 ≤ fuel3 →
      check_string fuel3 fsm3 input_str g3 = Return true g3 ↔
      ∃ u v, input_str = String.append u v ∧
             check_string fuel1 fsm1 u g1 = Return true g1 ∧
             check_string fuel2 fsm2 v g2 = Return true g2.
Proof.
  intros Hinit1 Hinit2.
  pose proof (compiled_without_defect _ _ _ _ _ Hinit1) as Hp1.
  pose proof (compiled_without_defect _ _ _ _ _ Hinit2) as Hp2.
  destruct (tokens_app _ _ _ (le_n _) Hp1 Hp2) as [Htok Hdef].
  rewrite <- list_ascii_of_string_app in Htok, Hdef.
  eexists _, _. split; [by apply compile_pattern|].
  intros input_str fuel1 fuel2 fuel3 Hf1 Hf2 Hf3.
  rewrite (check_string_true _ h3 _ _ input_str fuel3 (compile_pattern _ _ h3 Hdef) Hf3).
  rewrite Htok, in_language_app. split.
  - intros (u & v & Hw & Hu & Hv).
    exists (string_of_list_ascii u), (string_of_list_ascii v). split; [|split].
    + rewrite <- string_of_list_ascii_app, <- Hw.
      by rewrite string_of_list_ascii_of_string.
    + apply (check_string_true _ _ _ _ _ _ Hinit1 Hf1).
      by rewrite list_ascii_of_string_of_list_ascii.
    + apply (check_string_true _ _ _ _ _ _ Hinit2 Hf2).
      by rewrite list_ascii_of_string_of_list_ascii.
  - intros (u & v & -> & Hu & Hv).
    exists (list_ascii_of_string u), (list_ascii_of_string v).
    split; [apply list_ascii_of_string_app|]. split.
    + by apply (check_string_true _ _ _ _ _ _ Hinit1 Hf1).
    + by apply (check_string_true _ _ _ _ _ _ Hinit2 Hf2).
Qed.

End Concatenation.

Lemma concatenated_patterns_witness :
  RegexFSM__init__ isalnum_ascii "a*" [] = Return (mkRegexFSM 2) (star_states "a" 0) ∧
  RegexFSM__init__ isalnum_ascii "b+" [] = Return (mkRegexFSM 0) (plus_states "b" 0) ∧
  ∃ fsm3 g3,
    RegexFSM__init__ isalnum_ascii (String.append "a*" "b+") [] = Return fsm3 g3 ∧
    ∀ input_str fuel1 fuel2 fuel3,
      enough_fuel (star_states "a" 0) ≤ fuel1 →
      enough_fuel (plus_states "b" 0) ≤ fuel2 →
      enough_fuel g3 ≤ fuel3 →
      check_string fuel3 fsm3 input_str g3 = Return true g3 ↔
      ∃ u v, input_str = String.append u v ∧
             check_string fuel1 (mkRegexFSM 2) u (star_states "a" 0)
               = Return true (star_states "a" 0) ∧
             check_string fuel2 (mkRegexFSM 0) v (plus_states "b" 0)
               = Return true (plus_states "b" 0).
Proof.
  assert (H1 : RegexFSM__init__ isalnum_ascii "a*" []
               = Return (mkRegexFSM 2) (star_states "a" 0)) by (vm_compute; reflexivity).
  assert (H2 : RegexFSM__init__ isalnum_ascii "b+" []
               = Return (mkRegexFSM 0) (plus_states "b" 0)) by (vm_compute; reflexivity).
  split; [exact H1|]. split; [exact H2|].
  exact (concatenated_patterns isalnum_ascii "a*" "b+" [] [] [] (mkRegexFSM 2) (mkRegexFSM 0)
           (star_states "a" 0) (plus_states "b" 0) H1 H2).
Defined.

(** ** The empty input *)

Lemma in_language_nil (toks : list (ascii * option ascii)) :
  in_language toks [] ↔ forallb starred toks = true.
Proof.
  induction toks as [|[c rep] toks IH]; simpl; [done|].
  rewrite andb_true_iff, <- IH. unfold starred, repeats. cbn [snd]. split.
  - intros (w1 & w2 & Hw & Hrep & Hlang).
    symmetry in Hw. apply app_eq_nil in Hw as [-> ->]. split; [|done].
    case_bool_decide; [done|]. case_bool_decide.
    + by destruct Hrep.
    + by destruct Hrep as (x & ? & _).
  - intros [Hstar Hlang]. exists [], []. split; [done|]. split; [|done].
    by rewrite Hstar.
Qed.

(** X3: a compiled automaton accepts the empty string exactly when every atom
    of the pattern is under ["*"]; the empty pattern is such a pattern. *)
Theorem empty_input_accepted (isalnum : ascii → bool) (pattern : string)
    (h0 : Heap) (fsm : RegexFSM) (h : Heap) (fuel : nat) :
  RegexFSM__init__ isalnum pattern h0 = Return fsm h →
  enough_fuel h ≤ fuel →
  check_string fuel fsm EmptyString h
  = Return (forallb starred (tokens (list_ascii_of_string pattern))) h.
Proof.
  intros Hinit Hfuel.
  pose proof (compiled_without_defect _ _ _ _ _ Hinit) as Hp.
  rewrite (compile_pattern isalnum pattern h0 Hp) in Hinit. injection Hinit as <- <-.
  apply check_string_decides; [done|].
  simpl start_state. simpl list_ascii_of_string.
  by rewrite accepts_pattern, in_language_nil.
Qed.

Lemma empty_input_accepted_witness :
  RegexFSM__init__ isalnum_ascii "a*" [] = Return (mkRegexFSM 2) (star_states "a" 0) ∧
  enough_fuel (star_states "a" 0) ≤ 4 ∧
  check_string 4 (mkRegexFSM 2) EmptyString (star_states "a" 0)
  = Return (forallb starred (tokens (list_ascii_of_string "a*"))) (star_states "a" 0).
Proof.
  assert (H : RegexFSM__init__ isalnum_ascii "a*" []
              = Return (mkRegexFSM 2) (star_states "a" 0)) by (vm_compute; reflexivity).
  assert (Hf : enough_fuel (star_states "a" 0) ≤ 4) by (vm_compute; lia).
  split; [exact H|]. split; [exact Hf|].
  exact (empty_input_accepted isalnum_ascii "a*" [] (mkRegexFSM 2) (star_states "a" 0) 4 H Hf).
Defined.

(** ** The atom fragment *)

(** X12: [build_fragment_for_symbol] allocates two states, [start] and [end],
    and gives [start] the one transition to [end] under the symbol; it
    marks nothing final and leaves every other state as it was.  It
    succeeds on every arena and for every symbol. *)
Theorem build_fragment_for_symbol_graph (sym : ascii) (h : Heap) :
  ∃ h',
    build_fragment_for_symbol sym h
      = Return (mkFragment (length h) (S (length h))) h' ∧
    length h' = length h + 2 ∧
    (∀ s k, dests h' s k =
            dests h s k ++
            (if bool_decide (s = length h ∧ k = Some sym) then [S (length h)] else [])) ∧
    (∀ s, final h' s = final h s).
Proof.
  eexists. split; [apply build_fragment_for_symbol_eq|].
  split; [rewrite length_app; simpl; lia|]. split.
  - intros s k. destruct (decide (s < length h)) as [Hs|Hs].
    + rewrite dests_app_l by done.
      rewrite bool_decide_eq_false_2 by (intros [? _]; lia). by rewrite app_nil_r.
    + rewrite (dests_dangling h) by lia. rewrite dests_app_r by lia. simpl.
      destruct (s - length h) as [|[|j]] eqn:Hj.
      * rewrite dests_cons_0. simpl. rewrite lookup_singleton.
        destruct (decide (Some sym = k)) as [<-|Hk].
        -- rewrite bool_decide_eq_true_2; [done|]. split; [lia|done].
        -- rewrite bool_decide_eq_false_2; [done|]. by intros [_ ->].
      * rewrite bool_decide_eq_false_2 by (intros [? _]; lia). done.
      * rewrite bool_decide_eq_false_2 by (intros [? _]; lia). done.
  - intros s. rewrite !final_flags, flags_app. simpl.
    destruct (decide (s < length h)) as [Hs|Hs].
    + rewrite lookup_app_l; [done|]. unfold flags. by rewrite length_fmap.
    + rewrite lookup_app_r by (unfold flags; rewrite length_fmap; lia).
      rewrite (lookup_ge_None_2 (flags h)) by (unfold flags; rewrite length_fmap; lia).
      unfold flags at 1. rewrite length_fmap.
      by destruct (s - length h) as [|[|j]].
Qed.
